(** * fusenet.model_selection.stability: model selection by stability selection

    A shallow embedding of [src/fusenet/model_selection/stability.py]
    (class [Stability]: [_dep2adj], [_adj_var], [optimal_reg]) and the
    properties of it that the specification states.

    Conventions of the embedding.
    - A Python/numpy float is a rational ([Q]): rounding is idealised away.
      The special values that the code can produce by a division by zero
      are kept ([npfloat]: [NaN], [PInf], [NInf]), because numpy does not
      raise there and the scan of [optimal_reg] then compares against them.
    - A 2-d ndarray is the list of its rows; the lemmas take square
      matrices ([Np.square]), the only ones [_dep2adj] lets through.
    - A Python [dict] is an association list in iteration order whose keys
      are pairwise different for the key's equality ([==] on floats is
      [Qeq_bool]); [d[k] = v] overwrites in place and keeps the old key.
    - Raised exceptions are the left summand of [result]; the warning and
      the printed line of [optimal_reg] are collected in a log ([M]).
      The RuntimeWarning of numpy for a division by zero is not
      recorded. *)

From Stdlib Require Import QArith Qabs Lqa Lia String.
From stdpp Require Import base list sorting.

Open Scope Q_scope.

(** ** Python: exceptions, results, effects *)

Module Py.

Inductive exn : Type :=
| AssertionError (msg : string)
| TypeError
| ValueError
| IndexError.

Definition result (A : Type) : Type := exn + A.

Definition OK {A} (a : A) : result A := inr a.
Definition Raise {A} (e : exn) : result A := inl e.

Definition rbind {A B} (r : result A) (k : A -> result B) : result B :=
  match r with inl e => inl e | inr a => k a end.

(** [[f x for x in l]] for a body that may raise: the first exception,
    in iteration order, leaves the comprehension. *)
Fixpoint mapM {A B} (f : A -> result B) (l : list A) : result (list B) :=
  match l with
  | [] => OK []
  | x :: l' => rbind (f x) (fun y => rbind (mapM f l') (fun ys => OK (y :: ys)))
  end.

(** Python 2 [reduce(f, l)] without initial value. *)
Definition reduce {A} (f : A -> A -> result A) (l : list A) : result A :=
  match l with
  | [] => Raise TypeError
  | x :: l' => foldl (fun acc y => rbind acc (fun a => f a y)) (OK x) l'
  end.

(** [l[i]] for [i >= 0] *)
Definition getitem {A} (l : list A) (i : nat) : result A :=
  match l !! i with Some v => OK v | None => Raise IndexError end.

(** [l[-2]]: the index counts from the end, [len(l) - 2], and is out of
    range when that is negative. *)
Definition index_m2 {A} (l : list A) : result A :=
  if (2 <=? length l)%nat then getitem l (length l - 2) else Raise IndexError.

(** What [optimal_reg] itself reports besides its value: its call of
    [warnings.warn] (line 100) and its [print] (line 103). A
    RuntimeWarning that numpy issues for a division by zero is not an
    event of this log: [Np.div] gives the value of such a division and
    nothing else, so an empty log says that neither of the two statements
    was run, not that numpy stayed silent. *)
Inductive event : Type :=
| Warning (rho : Q)     (* warnings.warn('... Value %4.7f is set.' % rho) *)
| Printed (rho : Q).   (* the line 'Selected regularization: %4.7f' % rho *)

Definition M (A : Type) : Type := list event * result A.

Definition ret {A} (a : A) : M A := ([], OK a).
Definition lift {A} (r : result A) : M A := ([], r).
Definition emit (e : event) : M unit := ([e], OK tt).
Definition bind {A B} (m : M A) (k : A -> M B) : M B :=
  match m with
  | (log, inl e) => (log, inl e)
  | (log, inr a) => let '(log', r) := k a in (log ++ log', r)
  end.

Definition has_warning {A} (m : M A) : bool :=
  existsb (fun e => match e with Warning _ => true | Printed _ => false end) m.1.

End Py.

Import Py.

Notation "x <- r ;; k" := (rbind r (fun x => k))
  (at level 100, r at next level, right associativity, only parsing).
Notation "x <~ m ;; k" := (bind m (fun x => k))
  (at level 100, m at next level, right associativity, only parsing).

(** ** Dictionaries *)

Module Dict.
Section dict.
Context {K V : Type} (eqb : K -> K -> bool).

Definition t : Type := list (K * V).

Fixpoint get (d : t) (k : K) : option V :=
  match d with
  | [] => None
  | (k', v) :: d' => if eqb k' k then Some v else get d' k
  end.

(** [d[k] = v] *)
Fixpoint set (d : t) (k : K) (v : V) : t :=
  match d with
  | [] => [(k, v)]
  | (k', v') :: d' =>
      if eqb k' k then (k', v) :: d' else (k', v') :: set d' k v
  end.

Definition keys (d : t) : list K := d.*1.
Definition values (d : t) : list V := d.*2.
End dict.
End Dict.

(** ** numpy and scipy *)

Module Np.

Abbreviation ndarray A := (list (list A)) (only parsing).

Definition shape {A} (a : ndarray A) : nat * nat :=
  (length a, match a with [] => 0%nat | r :: _ => length r end).

Definition square {A} (p : nat) (a : ndarray A) : Prop :=
  length a = p /\ Forall (fun r => length r = p) a.

(** [a[i, j]] for indices in range. *)
Definition at_ {A} (a : ndarray A) (i j : nat) : option A :=
  a !! i ≫= fun r => r !! j.

Definition tabulate {A} (n m : nat) (f : nat -> nat -> A) : ndarray A :=
  (fun i => f i <$> seq 0 m) <$> seq 0 n.

(** [a.T] *)
Definition T (a : ndarray Q) : ndarray Q :=
  tabulate (shape a).2 (shape a).1 (fun j i => default 0 (at_ a i j)).

Definition map2 {A B C} (f : A -> B -> C) (a : ndarray A) (b : ndarray B)
  : ndarray C :=
  zip_with (zip_with f) a b.

(** An elementwise operation. *)
Definition map1 {A B} (f : A -> B) (a : ndarray A) : ndarray B :=
  (fun r : list A => f <$> r) <$> a.

Definition abs (a : ndarray Q) : ndarray Q := map1 Qabs a.

(** [a > x] for a scalar [x]: [x < a[i, j]]. *)
Definition gt (a : ndarray Q) (x : Q) : ndarray bool :=
  map1 (fun y => negb (Qle_bool y x)) a.

(** [np.maximum] on boolean arrays of one shape. *)
Definition maximum (a b : ndarray bool) : ndarray bool := map2 orb a b.

(** [np.array(a, dtype=np.int)] of a boolean array. *)
Definition astype_int (a : ndarray bool) : ndarray Z :=
  map1 (fun b : bool => if b then 1%Z else 0%Z) a.

Definition rtol : Q := 1e-5.
Definition atol : Q := 1e-8.

Definition isclose (x y : Q) : bool :=
  Qle_bool (Qabs (x - y)) (atol + rtol * Qabs y).

(** [np.allclose(a, b)] with the default tolerances, for arrays of one
    shape: [all(|a - b| <= atol + rtol * |b|)]. *)
Definition allclose (a b : ndarray Q) : bool :=
  forallb (forallb id) (map2 isclose a b).

(** Broadcasting of one axis: equal lengths, or one of them is 1. *)
Definition bdim (n m : nat) : option nat :=
  if (n =? m)%nat then Some n
  else if (n =? 1)%nat then Some m
  else if (m =? 1)%nat then Some n
  else None.

Definition bidx (n i : nat) : nat := if (n =? 1)%nat then 0%nat else i.

(** [np.add] on integer arrays, with numpy's broadcasting. *)
Definition add (a b : ndarray Z) : result (ndarray Z) :=
  let '(ra, ca) := shape a in
  let '(rb, cb) := shape b in
  match bdim ra rb, bdim ca cb with
  | Some r, Some c =>
      OK (tabulate r c (fun i j =>
            (default 0 (at_ a (bidx ra i) (bidx ca j))
             + default 0 (at_ b (bidx rb i) (bidx cb j)))%Z))
  | _, _ => Raise ValueError
  end.

(** [a / n] of an integer array by a float. *)
Definition div_scalar (a : ndarray Z) (n : Q) : ndarray Q :=
  map1 (fun x => inject_Z x / n) a.

(** [np.triu_indices(n, k)]: the row and the column indices of the
    entries [(i, j)] with [i + k <= j], in row-major order. *)
Definition triu_pairs (n k : nat) : list (nat * nat) :=
  i ← seq 0 n;
  (fun j => (i, j)) <$> filter (fun j => (i + k <= j)%nat) (seq 0 n).

Definition triu_indices (n k : nat) : list nat * list nat :=
  ((triu_pairs n k).*1, (triu_pairs n k).*2).

(** [a[x_idx, y_idx]] *)
Definition take2 {A} (a : ndarray A) (x_idx y_idx : list nat)
  : result (list A) :=
  mapM (fun ij : nat * nat =>
          match at_ a ij.1 ij.2 with
          | Some v => OK v
          | None => Raise IndexError
          end)
       (zip x_idx y_idx).

Definition sum (l : list Q) : Q := foldr Qplus 0 l.

(** Binomial coefficients. *)
Fixpoint binom (n k : nat) : nat :=
  match n, k with
  | _, O => 1
  | O, S _ => 0
  | S n', S k' => binom n' k' + binom n' k
  end.

(** [scipy.misc.comb(N, k)]: the binomial coefficient as a float,
    0 when [k > N]. *)
Definition comb (N k : nat) : Q := inject_Z (Z.of_nat (binom N k)).

(** Floating-point results that need not be finite. *)
Inductive npfloat : Type :=
| Fin (q : Q)
| PInf
| NInf
| NaN.

(** [x / y] on numpy floats: a zero divisor gives [nan] or an infinity,
    never an exception (numpy's RuntimeWarning is not recorded). *)
Definition div (x y : Q) : npfloat :=
  if Qeq_bool y 0 then
    if Qeq_bool x 0 then NaN
    else if Qle_bool 0 x then PInf else NInf
  else Fin (x / y).

(** [x <= y]: false as soon as a [nan] is involved. *)
Definition le (x y : npfloat) : bool :=
  match x, y with
  | NaN, _ | _, NaN => false
  | NInf, _ | _, PInf => true
  | _, NInf | PInf, _ => false
  | Fin a, Fin b => Qle_bool a b
  end.

(** The smaller of two, [nan] if one of them is. *)
Definition minimum (x y : npfloat) : npfloat :=
  match x, y with
  | NaN, _ | _, NaN => NaN
  | _, _ => if le y x then y else x
  end.

(** [np.min(l)] of a list of floats. *)
Definition min (l : list npfloat) : result npfloat :=
  match l with
  | [] => Raise ValueError
  | x :: l' => OK (foldl minimum x l')
  end.

End Np.

(** ** class Stability *)

Record Stability : Type := {
  beta : Q;
  thres : Q;
  verbose : bool
}.

(** [Stability()] *)
Definition default_Stability : Stability :=
  {| beta := 0.05; thres := 1e-3; verbose := true |}.

Definition _dep2adj (self : Stability) (dep_matrix : Np.ndarray Q)
  : result (Np.ndarray Z) :=
  if ((Np.shape dep_matrix).1 =? (Np.shape dep_matrix).2)%nat then
    if Np.allclose dep_matrix (Np.T dep_matrix) then
      OK (Np.astype_int (Np.gt (Np.abs dep_matrix) (thres self)))
    else
      let adj := Np.maximum (Np.gt (Np.abs dep_matrix) (thres self))
                            (Np.gt (Np.abs (Np.T dep_matrix)) (thres self)) in
      OK (Np.astype_int adj)
  else Raise (AssertionError "Dependency matrix is not quadratic").

Definition _adj_var (mean_adj : Np.ndarray Q) : result Np.npfloat :=
  let p := (Np.shape mean_adj).1 in
  let '(x_idx, y_idx) := Np.triu_indices p 1 in
  let nck := Np.comb p 2 in
  vals <- Np.take2 mean_adj x_idx y_idx ;;
  OK (Np.div (Np.sum ((fun v => (2 * v) * (1 - v)) <$> vals)) nck).

(** [sorted(rhos)] and the comparisons of floats in comprehensions. *)
#[global] Instance Qle_dec : RelDecision Qle :=
  fun x y => decide (Qnum x * QDen y <= Qnum y * QDen x)%Z.

Definition sorted (rhos : list Q) : list Q := merge_sort Qle rhos.

(** Subsample identifiers. *)
Definition sample : Type := string.

(** Lines 78-82: the length check, then the adjacency matrices of every
    subsample. The order of the list stands for the order in which the
    dict is iterated, which Python 2 leaves open. *)
Definition sample2adjs_of (self : Stability) (rhos : list Q)
    (sample2deps : list (sample * list (Np.ndarray Q)))
  : result (list (sample * list (Np.ndarray Z))) :=
  if forallb (fun deps : list (Np.ndarray Q) => (length rhos =? length deps)%nat)
             (Dict.values sample2deps)
  then
    foldl (fun acc '(sample, deps) =>
             sample2adjs <- acc ;;
             adjs <- mapM (_dep2adj self) deps ;;
             OK (Dict.set String.eqb sample2adjs sample adjs))
          (OK []) sample2deps
  else Raise (AssertionError
                "Dependency matrices for same values of regularization are missing.").

(** Lines 83-85: for every position of the path, the sum over the
    subsamples of the adjacency matrix at that position, stored under the
    value at that position. *)
Definition rho2adjs_of (rhos : list Q)
    (sample2adjs : list (sample * list (Np.ndarray Z)))
  : result (list (Q * Np.ndarray Z)) :=
  foldl (fun acc '(i, rho) =>
           rho2adjs <- acc ;;
           col <- mapM (fun vals : list (Np.ndarray Z) => getitem vals i)
                       (Dict.values sample2adjs) ;;
           s <- reduce Np.add col ;;
           OK (Dict.set Qeq_bool rho2adjs rho s))
        (OK []) (zip (seq 0 (length rhos)) rhos).

(** Lines 86-88. [n_adj] is not 0 where it divides: [rho2adjs] has an
    entry only after a [reduce] over the subsamples has succeeded
    ([rho2adjs_without_samples]). *)
Definition rho2var_of (sample2adjs : list (sample * list (Np.ndarray Z)))
    (rho2adjs : list (Q * Np.ndarray Z))
  : result (list (Q * Np.npfloat)) :=
  let n_adj := inject_Z (Z.of_nat (length sample2adjs)) in
  let rho2mean_adj :=
    (fun '(rho, adj) => (rho, Np.div_scalar adj n_adj)) <$> rho2adjs in
  mapM (fun '(rho, mean_adj) => var <- _adj_var mean_adj ;; OK (rho, var))
       rho2mean_adj.

(** Lines 78-88. *)
Definition instabilities (self : Stability) (rhos : list Q)
    (sample2deps : list (sample * list (Np.ndarray Q)))
  : result (list (Q * Np.npfloat)) :=
  sample2adjs <- sample2adjs_of self rhos sample2deps ;;
  rho2adjs <- rho2adjs_of rhos sample2adjs ;;
  rho2var_of sample2adjs rho2adjs.

(** Line 94: [[var for lambd, var in rho2var.iteritems() if lambd <= rho]] *)
Definition vars_upto (rho2var : list (Q * Np.npfloat)) (rho : Q)
  : list Np.npfloat :=
  (filter (fun kv : Q * Np.npfloat => kv.1 <= rho) rho2var).*2.

(** Lines 92-97: the loop over the sorted path, left by [break]. *)
Fixpoint scan (self : Stability) (rho2var : list (Q * Np.npfloat))
    (rhos : list Q) : result (option Q) :=
  match rhos with
  | [] => OK None
  | rho :: rhos' =>
      min_var <- Np.min (vars_upto rho2var rho) ;;
      if Np.le min_var (Np.Fin (beta self)) then OK (Some rho)
      else scan self rho2var rhos'
  end.

(** Lines 91-104. *)
Definition select (self : Stability) (rhos : list Q)
    (rho2var : list (Q * Np.npfloat)) : M Q :=
  let rhos := sorted rhos in
  found <~ lift (scan self rho2var rhos) ;;
  rho_opt <~ match found with
             | Some rho => ret rho
             | None =>
                 rho_opt <~ lift (index_m2 rhos) ;;
                 _ <~ emit (Warning rho_opt) ;;
                 ret rho_opt
             end ;;
  _ <~ (if verbose self then emit (Printed rho_opt) else ret tt) ;;
  ret rho_opt.

Definition optimal_reg (self : Stability) (rhos : list Q)
    (sample2deps : list (sample * list (Np.ndarray Q))) : M Q :=
  rho2var <~ lift (instabilities self rhos sample2deps) ;;
  select self rhos rho2var.

(** ** Notions of the specification *)

(** "Numerically symmetric": every entry matches its transpose within the
    tolerance of the closeness test. *)
Definition numerically_symmetric (dep : Np.ndarray Q) : Prop :=
  forall i j x y, Np.at_ dep i j = Some x -> Np.at_ dep j i = Some y ->
    Qabs (x - y) <= Np.atol + Np.rtol * Qabs y.

(** Exactly symmetric. *)
Definition exactly_symmetric (dep : Np.ndarray Q) : Prop :=
  forall i j x y, Np.at_ dep i j = Some x -> Np.at_ dep j i = Some y -> x == y.

Definition symmetric {A} (a : Np.ndarray A) : Prop :=
  forall i j, Np.at_ a i j = Np.at_ a j i.

Definition binary (a : Np.ndarray Z) : Prop :=
  forall i j x, Np.at_ a i j = Some x -> x = 0%Z \/ x = 1%Z.

(** [|x| > thres] *)
Definition exceeds (self : Stability) (x : Q) : bool :=
  negb (Qle_bool (Qabs x) (thres self)).

Definition b2z (b : bool) : Z := if b then 1%Z else 0%Z.

(** The adjacency matrix of a square dependency matrix, in closed form. *)
Definition adj_closed (self : Stability) (p : nat) (dep : Np.ndarray Q)
  : Np.ndarray Z :=
  Np.tabulate p p (fun i j =>
    let d i j := default 0 (Np.at_ dep i j) in
    b2z (if Np.allclose dep (Np.T dep) then exceeds self (d i j)
         else exceeds self (d i j) || exceeds self (d j i))).

(** The contribution of one pair of features with selection frequency [f]. *)
Definition pair_instability (f : Q) : Q := 2 * f * (1 - f).

(** [a[i, j]] for a pair of indices, 0 out of range. *)
Definition entry (a : Np.ndarray Q) (ij : nat * nat) : Q :=
  default 0 (Np.at_ a ij.1 ij.2).

(** The running minimum at [rho]: the minimum, as [np.min] takes it, of
    the instability scores recorded for the values [<= rho]. A [nan] among
    them makes the minimum [nan]. *)
Definition running_min (rho2var : list (Q * Np.npfloat)) (rho : Q)
    (m : Np.npfloat) : Prop :=
  let scored v := exists lambd, (lambd, v) ∈ rho2var /\ lambd <= rho in
  scored m /\
  (scored Np.NaN -> m = Np.NaN) /\
  (~ scored Np.NaN -> forall v, scored v -> Np.le m v = true).

(** The candidate [rho] meets the bound: its running minimum is [<= beta]. *)
Definition stable_at (self : Stability) (rho2var : list (Q * Np.npfloat))
    (rho : Q) : Prop :=
  exists m, running_min rho2var rho m /\ Np.le m (Np.Fin (beta self)) = true.

(** The log of a call that selects [rho] in the scan, and of one that
    falls back to [rho]. *)
Definition log_selected (self : Stability) (rho : Q) : list event :=
  if verbose self then [Printed rho] else [].

Definition log_fallback (self : Stability) (rho : Q) : list event :=
  Warning rho :: log_selected self rho.

(** Every candidate has a score recorded for a value equal to it. *)
Definition covered {V} (d : list (Q * V)) (rhos : list Q) : Prop :=
  forall rho, rho ∈ rhos -> exists k v, (k, v) ∈ d /\ k == rho.

(** A valid input of the selector: at least one subsample, pairwise
    different subsample identifiers, one matrix per value of the path for
    every subsample, all matrices square over the same [p] features. *)
Definition valid_input (p : nat) (rhos : list Q)
    (sample2deps : list (sample * list (Np.ndarray Q))) : Prop :=
  sample2deps <> [] /\
  NoDup sample2deps.*1 /\
  Forall (fun deps : list (Np.ndarray Q) =>
            length deps = length rhos /\ Forall (Np.square p) deps)
         sample2deps.*2.

(** The entry [(a, b)] of the adjacency matrix of the [i]-th dependency
    matrix of a subsample. *)
Definition adj_entry (self : Stability) (deps : list (Np.ndarray Q))
    (i a b : nat) : Z :=
  match deps !! i with
  | Some dep =>
      match _dep2adj self dep with
      | inr adj => default 0%Z (Np.at_ adj a b)
      | inl _ => 0%Z
      end
  | None => 0%Z
  end.

Definition sumZ (l : list Z) : Z := foldr Z.add 0%Z l.

(** The mean adjacency at position [i] of the path: the adjacency
    matrices of the subsamples at that position, summed entry by entry and
    divided by the number of subsamples. *)
Definition mean_adj_at (self : Stability) (p : nat)
    (sample2deps : list (sample * list (Np.ndarray Q))) (i : nat)
  : Np.ndarray Q :=
  Np.tabulate p p (fun a b =>
    inject_Z (sumZ ((fun sd : sample * list (Np.ndarray Q) =>
                       adj_entry self sd.2 i a b) <$> sample2deps))
    / inject_Z (Z.of_nat (length sample2deps))).

(** The score of a square matrix, in closed form. *)
Definition adj_var_closed (p : nat) (m : Np.ndarray Q) : Np.npfloat :=
  Np.div (Np.sum ((fun ij => pair_instability (entry m ij)) <$> Np.triu_pairs p 1))
         (Np.comb p 2).

(** [rho2var] on a valid input, in closed form: position after position,
    the score of the mean adjacency at the position is stored under the
    value at the position. *)
Definition rho2var_closed (self : Stability) (p : nat) (rhos : list Q)
    (sample2deps : list (sample * list (Np.ndarray Q)))
  : list (Q * Np.npfloat) :=
  foldl (fun d '(i, rho) =>
           Dict.set Qeq_bool d rho
             (adj_var_closed p (mean_adj_at self p sample2deps i)))
        [] (zip (seq 0 (length rhos)) rhos).

(** ** Example inputs *)

Module Ex.
(** Dependency matrices over three features: no edge, one edge, all
    edges. *)
Definition none3 : Np.ndarray Q := [[0; 0; 0]; [0; 0; 0]; [0; 0; 0]].
Definition one3 : Np.ndarray Q := [[0; 1; 0]; [1; 0; 0]; [0; 0; 0]].
Definition full3 : Np.ndarray Q := [[0; 1; 1]; [1; 0; 1]; [1; 1; 0]].

Definition rhos : list Q := [0.1; 0.3; 0.5].

(** Two subsamples that agree only at the largest value. *)
Definition agree_last : list (sample * list (Np.ndarray Q)) :=
  [("a"%string, [full3; one3; none3]); ("b"%string, [none3; none3; none3])].

(** Two subsamples that agree nowhere. *)
Definition agree_never : list (sample * list (Np.ndarray Q)) :=
  [("a"%string, [full3; one3; one3]); ("b"%string, [none3; none3; none3])].

(** Over two features. *)
Definition none2 : Np.ndarray Q := [[0; 0]; [0; 0]].
Definition full2 : Np.ndarray Q := [[0; 1]; [1; 0]].

(** A path with the same value twice. *)
Definition twice : list Q := [0.5; 0.5].

Definition differ_first : list (sample * list (Np.ndarray Q)) :=
  [("a"%string, [full2; none2]); ("b"%string, [none2; none2])].

Definition differ_both : list (sample * list (Np.ndarray Q)) :=
  [("a"%string, [full2; full2]); ("b"%string, [none2; none2])].
End Ex.

(** ** Intermediate values of [optimal_reg] on a valid input, in closed form *)

(** The sum of a column of square matrices, entry by entry. *)
Definition msum (p : nat) (col : list (Np.ndarray Z)) : Np.ndarray Z :=
  Np.tabulate p p (fun a b =>
    sumZ ((fun m => default 0%Z (Np.at_ m a b)) <$> col)).

(** [sample2adjs] *)
Definition adjs_closed (self : Stability) (p : nat)
    (s2d : list (sample * list (Np.ndarray Q)))
  : list (sample * list (Np.ndarray Z)) :=
  (fun sd : sample * list (Np.ndarray Q) => (sd.1, adj_closed self p <$> sd.2))
    <$> s2d.

(** [[vals[i] for vals in sample2adjs.values()]] *)
Definition col (s2a : list (sample * list (Np.ndarray Z))) (i : nat)
  : list (Np.ndarray Z) :=
  (fun vals : list (Np.ndarray Z) => default [] (vals !! i)) <$> s2a.*2.

(** [rho2adjs] *)
Definition rho2adjs_closed (p : nat) (rhos : list Q)
    (s2a : list (sample * list (Np.ndarray Z))) : list (Q * Np.ndarray Z) :=
  foldl (fun d '(i, rho) => Dict.set Qeq_bool d rho (msum p (col s2a i)))
        [] (zip (seq 0 (length rhos)) rhos).

(** What the sums need of the adjacency matrices. *)
Definition valid_adjs (p : nat) (rhos : list Q)
    (s2a : list (sample * list (Np.ndarray Z))) : Prop :=
  s2a <> [] /\
  Forall (fun vals : list (Np.ndarray Z) =>
            length vals = length rhos /\ Forall (Np.square p) vals) s2a.*2.

(** ** Further notions *)

(** The same instance, silenced. *)
Definition quiet (self : Stability) : Stability :=
  {| beta := beta self; thres := thres self; verbose := false |}.

Definition is_warning (e : event) : bool :=
  match e with Warning _ => true | Printed _ => false end.

Definition is_printed (e : event) : bool :=
  match e with Warning _ => false | Printed _ => true end.

(** No two of the values are equal. *)
Fixpoint distinct_values (l : list Q) : Prop :=
  match l with
  | [] => True
  | k :: l' => Forall (fun k' => ~ k == k') l' /\ distinct_values l'
  end.

(** No two entries of a dict have equal keys. *)
Definition keys_distinct {V} (d : list (Q * V)) : Prop := distinct_values d.*1.

(** The exception of the assertion of [_dep2adj]. *)
Definition not_quadratic : exn :=
  AssertionError "Dependency matrix is not quadratic".

(** [l'] is [l] taken in the order [pi], a permutation of its positions:
    [l' = [l[i] for i in pi]]. *)
Definition reordered {A} (pi : list nat) (l l' : list A) : Prop :=
  pi ≡ₚ seq 0 (length l) /\
  length l' = length pi /\
  forall j i, pi !! j = Some i -> l' !! j = l !! i.

(** * Proofs *)
(** ** Facts about results *)

Lemma rbind_OK {A B} (a : A) (k : A -> result B) : rbind (OK a) k = k a.
Proof. reflexivity. Qed.

Lemma rbind_Raise {A B} (e : exn) (k : A -> result B) : rbind (Raise e) k = Raise e.
Proof. reflexivity. Qed.

Lemma mapM_OK {A B} (f : A -> result B) (g : A -> B) l :
  (forall x, x ∈ l -> f x = OK (g x)) -> mapM f l = OK (g <$> l).
Proof.
  induction l as [|x l IH]; intros H; [done|]. simpl.
  rewrite (H x) by left. simpl. rewrite IH; [done|].
  intros y Hy. apply H. by right.
Qed.

(** ** Facts about the array operations *)

Module NpFacts.
Import Np.

Lemma at_tabulate {A} n m (f : nat -> nat -> A) i j :
  (i < n)%nat -> (j < m)%nat -> at_ (tabulate n m f) i j = Some (f i j).
Proof.
  intros Hi Hj. unfold at_, tabulate.
  rewrite list_lookup_fmap, lookup_seq_lt by done. simpl.
  by rewrite list_lookup_fmap, lookup_seq_lt.
Qed.

Lemma at_tabulate_Some {A} n m (f : nat -> nat -> A) i j x :
  at_ (tabulate n m f) i j = Some x -> (i < n)%nat /\ (j < m)%nat /\ x = f i j.
Proof.
  unfold at_, tabulate. rewrite list_lookup_fmap.
  destruct (seq 0 n !! i) as [i'|] eqn:Ei; [|done]. simpl.
  apply lookup_seq in Ei as [-> Hi]. rewrite list_lookup_fmap.
  destruct (seq 0 m !! j) as [j'|] eqn:Ej; [|done]. simpl.
  apply lookup_seq in Ej as [-> Hj]. intros [= <-]. done.
Qed.

Lemma square_tabulate {A} p (f : nat -> nat -> A) : square p (tabulate p p f).
Proof.
  split; unfold tabulate.
  - by rewrite length_fmap, length_seq.
  - apply Forall_fmap, Forall_forall. intros i _. simpl.
    by rewrite length_fmap, length_seq.
Qed.

Lemma tabulate_ext {A} n m (f g : nat -> nat -> A) :
  (forall i j, (i < n)%nat -> (j < m)%nat -> f i j = g i j) ->
  tabulate n m f = tabulate n m g.
Proof.
  intros H. unfold tabulate. apply list_fmap_ext. intros k i Hk.
  apply lookup_seq in Hk as [-> Hk]. apply list_fmap_ext.
  intros k' j Hk'. apply lookup_seq in Hk' as [-> Hk']. simpl. auto.
Qed.

(** A square array is the table of its entries. *)
Lemma square_as_tabulate {A} (d : A) p (a : ndarray A) :
  square p a -> a = tabulate p p (fun i j => default d (at_ a i j)).
Proof.
  intros [Hl Hr]. apply list_eq. intros i. unfold tabulate.
  rewrite list_lookup_fmap.
  destruct (decide (i < p)%nat) as [Hi|Hi].
  - rewrite lookup_seq_lt by done. simpl.
    destruct (lookup_lt_is_Some_2 a i) as [r Er]; [lia|].
    rewrite Er. f_equal. apply list_eq. intros j.
    rewrite list_lookup_fmap. unfold at_. rewrite Er. simpl.
    rewrite Forall_lookup in Hr. specialize (Hr _ _ Er).
    destruct (decide (j < p)%nat) as [Hj|Hj].
    + rewrite lookup_seq_lt by done. simpl.
      destruct (lookup_lt_is_Some_2 r j) as [x Ex]; [lia|]. by rewrite Ex.
    + rewrite lookup_seq_ge by lia. apply lookup_ge_None_2. lia.
  - rewrite lookup_seq_ge by lia. apply lookup_ge_None_2. lia.
Qed.

Lemma square_at {A} p (a : ndarray A) i j :
  square p a -> (i < p)%nat -> (j < p)%nat -> is_Some (at_ a i j).
Proof.
  intros [Hl Hr] Hi Hj. unfold at_.
  destruct (lookup_lt_is_Some_2 a i) as [r Hr']; [lia|].
  rewrite Hr'. simpl. apply lookup_lt_is_Some_2.
  rewrite Forall_lookup in Hr. rewrite (Hr _ _ Hr'). done.
Qed.

Lemma at_square {A} p (a : ndarray A) i j x :
  square p a -> at_ a i j = Some x -> (i < p)%nat /\ (j < p)%nat.
Proof.
  intros Hsq Hx. rewrite (square_as_tabulate x p a Hsq) in Hx.
  apply at_tabulate_Some in Hx. lia.
Qed.

Lemma shape_square {A} p (a : ndarray A) : square p a -> shape a = (p, p).
Proof.
  intros [Hl Hr]. unfold shape. rewrite Hl. f_equal.
  destruct a as [|r a]; [done|]. by inversion Hr.
Qed.

Lemma shape_tabulate {A} p (f : nat -> nat -> A) : shape (tabulate p p f) = (p, p).
Proof. apply shape_square, square_tabulate. Qed.

Lemma map1_tabulate {A B} (g : A -> B) n m (f : nat -> nat -> A) :
  map1 g (tabulate n m f) = tabulate n m (fun i j => g (f i j)).
Proof.
  unfold map1, tabulate. rewrite <- list_fmap_compose.
  apply list_fmap_ext. intros _ i _. simpl. by rewrite <- list_fmap_compose.
Qed.

Lemma map2_tabulate {A B C} (h : A -> B -> C) n m
    (f : nat -> nat -> A) (g : nat -> nat -> B) :
  map2 h (tabulate n m f) (tabulate n m g)
  = tabulate n m (fun i j => h (f i j) (g i j)).
Proof.
  unfold map2, tabulate. rewrite zip_with_fmap_l, zip_with_fmap_r.
  rewrite zip_with_diag. apply list_fmap_ext. intros _ i _. simpl.
  rewrite zip_with_fmap_l, zip_with_fmap_r. by rewrite zip_with_diag.
Qed.

Lemma T_tabulate p (f : nat -> nat -> Q) :
  T (tabulate p p f) = tabulate p p (fun i j => f j i).
Proof.
  unfold T. rewrite shape_tabulate. simpl. apply tabulate_ext.
  intros i j Hi Hj. by rewrite at_tabulate.
Qed.

Lemma forallb_tabulate n m (f : nat -> nat -> bool) :
  forallb (forallb id) (tabulate n m f) = true
  <-> forall i j, (i < n)%nat -> (j < m)%nat -> f i j = true.
Proof.
  unfold tabulate. rewrite forallb_forall. split.
  - intros H i j Hi Hj.
    assert (Hr : In (f i <$> seq 0 m) ((fun i => f i <$> seq 0 m) <$> seq 0 n)).
    { apply list_elem_of_In, list_elem_of_fmap. exists i. split; [done|].
      apply elem_of_seq. lia. }
    apply H in Hr. rewrite forallb_forall in Hr. apply (Hr (f i j)).
    apply list_elem_of_In, list_elem_of_fmap. exists j. split; [done|].
    apply elem_of_seq. lia.
  - intros H r Hr. apply list_elem_of_In, list_elem_of_fmap in Hr as (i & -> & Hi).
    apply elem_of_seq in Hi. apply forallb_forall. intros b Hb.
    apply list_elem_of_In, list_elem_of_fmap in Hb as (j & -> & Hj).
    apply elem_of_seq in Hj. apply H; lia.
Qed.

End NpFacts.

(** ** [_dep2adj] *)

Section dep2adj.
Import Np NpFacts.
Variable self : Stability.

Lemma exceeds_iff x : exceeds self x = true <-> thres self < Qabs x.
Proof.
  unfold exceeds. rewrite negb_true_iff, <- not_true_iff_false, Qle_bool_iff.
  split; [apply Qnot_le_lt | apply Qlt_not_le].
Qed.

Lemma b2z_binary b : b2z b = 0%Z \/ b2z b = 1%Z.
Proof. destruct b; auto. Qed.

Lemma b2z_one b : b2z b = 1%Z <-> b = true.
Proof. by destruct b. Qed.

(** On a square matrix the conversion is a table of thresholded entries. *)
Lemma dep2adj_square p dep :
  square p dep ->
  _dep2adj self dep = OK (adj_closed self p dep).
Proof.
  intros Hsq. unfold _dep2adj, adj_closed, exceeds. rewrite (shape_square p dep Hsq). simpl.
  rewrite Nat.eqb_refl. destruct (allclose dep (T dep)); f_equal.
  - rewrite (square_as_tabulate 0 p dep Hsq) at 1.
    unfold astype_int, gt, abs. by rewrite !map1_tabulate.
  - rewrite (square_as_tabulate 0 p dep Hsq) at 1 2.
    unfold astype_int, maximum, gt, abs.
    by rewrite T_tabulate, !map1_tabulate, map2_tabulate, map1_tabulate.
Qed.

Lemma allclose_T p dep :
  square p dep ->
  allclose dep (T dep) = true <-> numerically_symmetric dep.
Proof.
  intros Hsq. unfold allclose.
  rewrite (square_as_tabulate 0 p dep Hsq) at 1 2.
  rewrite T_tabulate, map2_tabulate, forallb_tabulate. unfold isclose.
  split.
  - intros H i j x y Hx Hy.
    assert (Hi : (i < p)%nat /\ (j < p)%nat).
    { rewrite (square_as_tabulate 0 p dep Hsq) in Hx.
      apply at_tabulate_Some in Hx. lia. }
    specialize (H i j (proj1 Hi) (proj2 Hi)). rewrite Hx, Hy in H.
    by apply Qle_bool_iff in H.
  - intros H i j Hi Hj.
    destruct (square_at p dep i j Hsq Hi Hj) as [x Hx].
    destruct (square_at p dep j i Hsq Hj Hi) as [y Hy].
    rewrite Hx, Hy. apply Qle_bool_iff. exact (H _ _ _ _ Hx Hy).
Qed.

End dep2adj.

Section dep2adj_claims.
Import Np NpFacts.

Lemma at_tabulate_None {A} n m (f : nat -> nat -> A) i j :
  ~ ((i < n)%nat /\ (j < m)%nat) -> at_ (tabulate n m f) i j = None.
Proof.
  intros H. destruct (at_ (tabulate n m f) i j) eqn:E; [|done].
  apply at_tabulate_Some in E. lia.
Qed.

Lemma symmetric_tabulate {A} p (f : nat -> nat -> A) :
  (forall i j, (i < p)%nat -> (j < p)%nat -> f i j = f j i) ->
  symmetric (tabulate p p f).
Proof.
  intros H i j. destruct (decide ((i < p)%nat /\ (j < p)%nat)) as [[Hi Hj]|Hn].
  - rewrite !at_tabulate by done. f_equal. auto.
  - rewrite !at_tabulate_None by lia. done.
Qed.

Lemma exceeds_proper self x y : x == y -> exceeds self x = exceeds self y.
Proof.
  intros H. apply eq_true_iff_eq. rewrite !exceeds_iff. by rewrite H.
Qed.

(** C6. For a square dependency matrix the conversion succeeds, and the
    entry (i,j) of the adjacency matrix is 1 or 0; if the matrix is
    numerically symmetric it is 1 iff [|dep[i,j]| > thres], and if it is
    not, it is 1 iff [|dep[i,j]| > thres] or [|dep[j,i]| > thres]. *)
Theorem dep2adj_rule (self : Stability) (dep : ndarray Q) (p : nat) :
  square p dep ->
  exists adj, _dep2adj self dep = OK adj /\ square p adj /\
    forall i j x y, at_ dep i j = Some x -> at_ dep j i = Some y ->
      exists a, at_ adj i j = Some a /\ (a = 0%Z \/ a = 1%Z) /\
        (numerically_symmetric dep ->
           (a = 1%Z <-> thres self < Qabs x)) /\
        (~ numerically_symmetric dep ->
           (a = 1%Z <-> thres self < Qabs x \/ thres self < Qabs y)).
Proof.
  intros Hsq. exists (adj_closed self p dep).
  split; [by apply dep2adj_square|]. unfold adj_closed.
  split; [apply square_tabulate|].
  intros i j x y Hx Hy.
  destruct (at_square p dep i j x Hsq Hx) as [Hi Hj].
  eexists. split; [by apply at_tabulate|]. cbv beta zeta. rewrite Hx, Hy.
  cbn [default]. split; [apply b2z_binary|].
  rewrite b2z_one. split; intros Hns.
  - apply (allclose_T p dep Hsq) in Hns. rewrite Hns. apply exceeds_iff.
  - destruct (allclose dep (T dep)) eqn:E.
    + by apply (allclose_T p dep Hsq) in E.
    + by rewrite orb_true_iff, !exceeds_iff.
Qed.

Lemma dep2adj_rule_witness :
  exists adj, _dep2adj default_Stability [[0; 0.0005]; [0.002; 0]] = OK adj /\
    adj = [[0; 1]; [1; 0]]%Z.
Proof.
  destruct (dep2adj_rule default_Stability [[0; 0.0005]; [0.002; 0]] 2)
    as (adj & Hadj & _).
  - split; [reflexivity | repeat constructor].
  - exists adj. split; [exact Hadj|].
    vm_compute in Hadj. by injection Hadj as <-.
Defined.

(** What the code does keep of the symmetry invariant: the conversion of
    a square dependency matrix gives a square matrix with entries in
    {0,1}, and that matrix is symmetric when the input is exactly
    symmetric or is not numerically symmetric. *)
Lemma dep2adj_binary_symmetric (self : Stability) (dep : ndarray Q) (p : nat) :
  square p dep ->
  exists adj, _dep2adj self dep = OK adj /\ square p adj /\ binary adj /\
    (exactly_symmetric dep \/ ~ numerically_symmetric dep -> symmetric adj).
Proof.
  intros Hsq. exists (adj_closed self p dep).
  split; [by apply dep2adj_square|]. unfold adj_closed.
  split; [apply square_tabulate|]. split.
  - intros i j x Hx. apply at_tabulate_Some in Hx as (_ & _ & ->).
    apply b2z_binary.
  - intros Hsym. apply symmetric_tabulate. intros i j Hi Hj. cbv beta zeta.
    destruct (square_at p dep i j Hsq Hi Hj) as [x Hx].
    destruct (square_at p dep j i Hsq Hj Hi) as [y Hy].
    rewrite Hx, Hy. cbn [default].
    destruct (allclose dep (T dep)) eqn:E.
    + destruct Hsym as [Hex|Hns].
      * f_equal. apply exceeds_proper. eauto.
      * by apply (allclose_T p dep Hsq) in E.
    + by rewrite orb_comm.
Qed.

Lemma dep2adj_binary_symmetric_witness :
  exists adj, _dep2adj default_Stability [[0; 0.002]; [0.002; 0]] = OK adj /\
    symmetric adj.
Proof.
  destruct (dep2adj_binary_symmetric default_Stability
              [[0; 0.002]; [0.002; 0]] 2) as (adj & Hadj & _ & _ & Hsym).
  - split; [reflexivity | repeat constructor].
  - exists adj. split; [exact Hadj|]. apply Hsym. left.
    intros i j x y Hx Hy.
    destruct i as [|[|i]], j as [|[|j]]; vm_compute in Hx, Hy; try done;
      injection Hx as <-; injection Hy as <-; reflexivity.
Defined.

(** C5. The code breaks the symmetry invariant. The dependency matrix
    [[0, 0.0010000001], [0.0009999999, 0]] is square and passes
    [np.allclose(dep, dep.T)], so with the default threshold 0.001
    [_dep2adj] takes the branch that thresholds entry by entry and
    returns [[0, 1], [0, 0]], which is not symmetric (its entries are in
    {0,1}); on the transposed input it returns [[0, 0], [1, 0]]. The
    other branch would have given the symmetric [[0, 1], [1, 0]]. *)
Theorem dep2adj_breaks_symmetry :
  let dep := [[0; 0.0010000001]; [0.0009999999; 0]] in
  let adj := [[0; 1]; [0; 0]]%Z in
  square 2 dep /\
  allclose dep (T dep) = true /\ numerically_symmetric dep /\
  ~ exactly_symmetric dep /\
  _dep2adj default_Stability dep = OK adj /\
  binary adj /\ ~ symmetric adj /\
  _dep2adj default_Stability (T dep) = OK [[0; 0]; [1; 0]]%Z /\
  astype_int (maximum (gt (abs dep) (thres default_Stability))
                      (gt (abs (T dep)) (thres default_Stability)))
    = [[0; 1]; [1; 0]]%Z.
Proof.
  intros dep adj.
  assert (Hsq : square 2 dep) by (split; [reflexivity | repeat constructor]).
  assert (Hclose : allclose dep (T dep) = true) by reflexivity.
  split; [exact Hsq|]. split; [exact Hclose|].
  split; [by apply (allclose_T 2 dep Hsq)|].
  split.
  { intros Hex. specialize (Hex 0%nat 1%nat 0.0010000001 0.0009999999
                              eq_refl eq_refl).
    discriminate Hex. }
  split; [reflexivity|]. split.
  { intros i j x Hx.
    destruct i as [|[|i]], j as [|[|j]]; vm_compute in Hx; try done;
      injection Hx as <-; auto. }
  split; [|split; reflexivity].
  intros Hsym. specialize (Hsym 0%nat 1%nat). discriminate Hsym.
Qed.
End dep2adj_claims.

(** ** [_adj_var] *)

Section adj_var.
Import Np NpFacts.

Lemma elem_of_triu_pairs n i j :
  (i, j) ∈ triu_pairs n 1 <-> (i < j < n)%nat.
Proof.
  unfold triu_pairs. rewrite list_elem_of_bind. split.
  - intros (i' & Hj & Hi). apply list_elem_of_fmap in Hj as (j' & [= -> ->] & Hj).
    apply list_elem_of_filter in Hj as [Hlt Hj]. apply elem_of_seq in Hj. lia.
  - intros H. exists i. split; [|apply elem_of_seq; lia].
    apply list_elem_of_fmap. exists j. split; [done|].
    apply list_elem_of_filter. split; [lia|]. apply elem_of_seq. lia.
Qed.

Lemma NoDup_triu_pairs n k : NoDup (triu_pairs n k).
Proof.
  unfold triu_pairs. apply NoDup_bind; [| |apply NoDup_seq].
  - intros i1 i2 [i j] _ _ H1 H2.
    apply list_elem_of_fmap in H1 as (? & [= -> _] & _).
    apply list_elem_of_fmap in H2 as (? & [= -> _] & _). done.
  - intros i _. apply NoDup_fmap_2; [by intros ?? [=]|].
    apply NoDup_filter, NoDup_seq.
Qed.

Lemma length_filter_above n i :
  length (filter (fun j => (i + 1 <= j)%nat) (seq 0 n)) = (n - (i + 1))%nat.
Proof.
  induction n as [|n IH]; [done|].
  rewrite seq_S, filter_app, length_app, IH. simpl.
  rewrite filter_cons, filter_nil. case_decide; simpl; lia.
Qed.

Lemma length_triu_prefix n k :
  (k <= n)%nat ->
  (2 * length (i ← seq 0 k;
               (fun j => (i, j)) <$> filter (fun j => (i + 1 <= j)%nat) (seq 0 n))
   + k * (k + 1) = 2 * k * n)%nat.
Proof.
  induction k as [|k IH]; intros Hk; [done|].
  rewrite seq_S, bind_app, length_app. simpl.
  rewrite app_nil_r, length_fmap, length_filter_above.
  specialize (IH ltac:(lia)). nia.
Qed.

Lemma binom_1 n : binom n 1 = n.
Proof. induction n as [|n IH]; [done|]. simpl. destruct n; simpl in *; lia. Qed.

Lemma binom_2 n : (2 * binom n 2 + n = n * n)%nat.
Proof.
  induction n as [|n IH]; [done|].
  change (binom (S n) 2) with (binom n 1 + binom n 2)%nat.
  rewrite binom_1. lia.
Qed.

Lemma length_triu_pairs n : length (triu_pairs n 1) = binom n 2.
Proof.
  pose proof (length_triu_prefix n n ltac:(lia)) as H.
  pose proof (binom_2 n). unfold triu_pairs. nia.
Qed.

(** On a square matrix no index is out of range, and the score is the sum
    of the contributions over the pairs above the diagonal divided by
    [comb(p, 2)]. *)
Lemma adj_var_square p m :
  square p m ->
  _adj_var m = OK (adj_var_closed p m).
Proof.
  intros Hsq. unfold _adj_var, adj_var_closed, pair_instability, triu_indices.
  rewrite (shape_square p m Hsq). cbn [fst]. unfold take2.
  rewrite zip_fst_snd.
  rewrite (mapM_OK _ (entry m)).
  - simpl. by rewrite <- list_fmap_compose.
  - intros [i j] Hij. apply elem_of_triu_pairs in Hij. unfold entry. simpl.
    destruct (square_at p m i j Hsq) as [x ->]; [lia..|]. done.
Qed.

Lemma comb_2_pos p : (2 <= p)%nat -> 0 < comb p 2.
Proof.
  intros Hp. unfold comb. pose proof (binom_2 p).
  change 0 with (inject_Z 0). rewrite <- Zlt_Qlt. nia.
Qed.

Lemma div_pos x y : 0 < y -> div x y = Fin (x / y).
Proof.
  intros Hy. unfold div. destruct (Qeq_bool y 0) eqn:E; [|done].
  apply Qeq_bool_iff in E. rewrite E in Hy. by apply Qlt_irrefl in Hy.
Qed.

Lemma sum_bounds (l : list Q) :
  Forall (fun x => 0 <= x <= 1 # 2) l ->
  0 <= sum l <= (1 # 2) * inject_Z (Z.of_nat (length l)).
Proof.
  induction 1 as [|x l Hx _ IH].
  - split; [apply Qle_refl|]. vm_compute. discriminate.
  - unfold sum in *. cbn [length foldr].
    rewrite Nat2Z.inj_succ. unfold Z.succ. rewrite inject_Z_plus.
    change (inject_Z 1) with 1. lra.
Qed.

Lemma sum_const (c : Q) (l : list Q) :
  Forall (fun x => x == c) l ->
  sum l == c * inject_Z (Z.of_nat (length l)).
Proof.
  induction 1 as [|x l Hx _ IH].
  - unfold sum. simpl. rewrite Qmult_0_r. reflexivity.
  - unfold sum in *. cbn [length foldr].
    rewrite Nat2Z.inj_succ. unfold Z.succ. rewrite inject_Z_plus.
    change (inject_Z 1) with 1. lra.
Qed.



End adj_var.

Section adj_var_claims.
Import Np NpFacts.

(** C3. For a square mean-adjacency matrix with at least two features the
    score is the arithmetic mean of [2 f (1 - f)], [f = meanAdj[i,j]],
    over the pairs [(i,j)] with [i < j], each taken once; there are
    [C(p,2) = p (p - 1) / 2] of them. *)
Theorem adj_var_is_pair_mean (m : ndarray Q) (p : nat) :
  square p m -> (2 <= p)%nat ->
  exists (pairs : list (nat * nat)) (q : Q),
    NoDup pairs /\
    (forall i j, (i, j) ∈ pairs <-> (i < j < p)%nat) /\
    length pairs = binom p 2 /\
    (2 * binom p 2 = p * (p - 1))%nat /\
    _adj_var m = OK (Fin q) /\
    q == sum ((fun ij => pair_instability (entry m ij)) <$> pairs)
         / inject_Z (Z.of_nat (length pairs)).
Proof.
  intros Hsq Hp. exists (triu_pairs p 1). eexists.
  split; [apply NoDup_triu_pairs|].
  split; [apply elem_of_triu_pairs|].
  split; [apply length_triu_pairs|].
  split; [pose proof (binom_2 p); nia|].
  split.
  - rewrite (adj_var_square p m Hsq). unfold adj_var_closed. f_equal.
    by apply div_pos, comb_2_pos.
  - rewrite length_triu_pairs. reflexivity.
Qed.

Lemma adj_var_is_pair_mean_witness :
  exists q, _adj_var [[0; 1; 1 # 2]; [1; 0; 0]; [1 # 2; 0; 0]] = OK (Fin q)
            /\ q == 1 # 6.
Proof.
  destruct (adj_var_is_pair_mean [[0; 1; 1 # 2]; [1; 0; 0]; [1 # 2; 0; 0]] 3)
    as (pairs & q & _ & _ & _ & _ & Hq & _).
  - split; [reflexivity | repeat constructor].
  - lia.
  - exists q. split; [exact Hq|].
    vm_compute in Hq. injection Hq as <-. reflexivity.
Defined.

Lemma pair_instability_bounds f :
  0 <= f <= 1 -> 0 <= pair_instability f <= 1 # 2.
Proof.
  unfold pair_instability. intros [H0 H1]. split.
  - assert (0 <= f * (1 - f)) by (apply Qmult_le_0_compat; lra). lra.
  - assert (H : 0 <= (2 * f - 1) * (2 * f - 1)); [|lra].
    destruct (Qlt_le_dec (2 * f - 1) 0).
    + assert (E : (2 * f - 1) * (2 * f - 1) == (1 - 2 * f) * (1 - 2 * f))
        by ring.
      rewrite E. apply Qmult_le_0_compat; lra.
    + apply Qmult_le_0_compat; lra.
Qed.






(** C9, as amended. For a square matrix with fewer than two features the
    computation does not fail: the empty sum 0.0 is divided by
    [comb(p, 2) = 0.0] and the result is [nan]. *)
Theorem adj_var_no_pairs_nan (m : ndarray Q) (p : nat) :
  square p m -> (p < 2)%nat -> _adj_var m = OK NaN.
Proof.
  intros Hsq Hp. rewrite (adj_var_square p m Hsq).
  destruct p as [|[|p]]; [reflexivity..|lia].
Qed.

Lemma adj_var_no_pairs_nan_witness : _adj_var [[1 # 2]] = OK NaN.
Proof.
  apply (adj_var_no_pairs_nan [[1 # 2]] 1).
  - split; [reflexivity | repeat constructor].
  - lia.
Defined.

(** C9, as stated, fails: no exception is raised for a 1 x 1 matrix. *)
Lemma adj_var_no_pairs_no_error :
  ~ (forall (m : ndarray Q) (p : nat),
       square p m -> (p < 2)%nat -> exists e, _adj_var m = Raise e).
Proof.
  intros H. destruct (H [[0]] 1%nat) as [e He].
  - split; [reflexivity | repeat constructor].
  - lia.
  - discriminate He.
Qed.
End adj_var_claims.

(** ** The scan over the sorted path *)

Section scan.
Import Np.

Lemma le_refl x : x <> NaN -> le x x = true.
Proof. destruct x; try done. intros _. simpl. apply Qle_bool_iff, Qle_refl. Qed.

Lemma le_trans x y z : le x y = true -> le y z = true -> le x z = true.
Proof.
  destruct x, y, z; simpl; try done.
  rewrite !Qle_bool_iff. apply Qle_trans.
Qed.

Lemma le_total x y : x <> NaN -> y <> NaN -> le x y = true \/ le y x = true.
Proof.
  destruct x, y; simpl; try done; auto. intros _ _.
  rewrite !Qle_bool_iff. destruct (Qlt_le_dec q q0); [left|right]; [|done].
  by apply Qlt_le_weak.
Qed.

Lemma le_not_nan x y : le x y = true -> x <> NaN /\ y <> NaN.
Proof. by destruct x, y. Qed.

Lemma nan_dec (x : npfloat) : {x = NaN} + {x <> NaN}.
Proof. destruct x; (by left) || (by right). Qed.

Lemma minimum_cases x y :
  (x = NaN \/ y = NaN) /\ minimum x y = NaN
  \/ x <> NaN /\ y <> NaN /\
     (minimum x y = x /\ le x y = true \/ minimum x y = y /\ le y x = true).
Proof.
  destruct (nan_dec x) as [->|Hx]; [left; split; [by left | by destruct y]|].
  destruct (nan_dec y) as [->|Hy]; [left; split; [by right | by destruct x]|].
  right. split; [done|]. split; [done|].
  assert (E : minimum x y = if le y x then y else x) by by destruct x, y.
  rewrite E. destruct (le y x) eqn:Hyx; [by right|].
  left. split; [done|]. destruct (le_total x y Hx Hy); congruence.
Qed.

(** What [np.min] returns on a non-empty list. *)
Lemma foldl_minimum x l :
  let m := foldl minimum x l in
  m ∈ x :: l /\
  (NaN ∈ x :: l -> m = NaN) /\
  (NaN ∉ x :: l -> forall v, v ∈ x :: l -> le m v = true).
Proof.
  revert x. induction l as [|y l IH]; intros x; cbn [foldl].
  - split; [left|]. split.
    + by intros ->%list_elem_of_singleton.
    + intros Hn v ->%list_elem_of_singleton. apply le_refl.
      intros ->. apply Hn. left.
  - destruct (IH (minimum x y)) as (Hin & Hnan & Hle).
    destruct (minimum_cases x y) as [[Hxy E]|(Hx & Hy & Hxy)].
    + rewrite E in *. assert (Em : foldl minimum NaN l = NaN).
      { apply Hnan. left. }
      rewrite Em. split.
      * destruct Hxy as [->| ->]; [left | right; left].
      * split; [done|]. intros Hn. exfalso. apply Hn.
        destruct Hxy as [->| ->]; [left | right; left].
    + split.
      { apply elem_of_cons in Hin as [E|Hin]; [|by do 2 right].
        rewrite E. destruct Hxy as [[-> _]|[-> _]]; [left | right; left]. }
      split.
      { intros Hn. apply Hnan.
        apply elem_of_cons in Hn as [E|Hn]; [done|].
        apply elem_of_cons in Hn as [E|Hn]; [done|]. by right. }
      intros Hn v Hv.
      assert (Hn' : NaN ∉ minimum x y :: l).
      { intros H. apply elem_of_cons in H as [E|H].
        - destruct Hxy as [[E' _]|[E' _]]; congruence.
        - apply Hn. by do 2 right. }
      specialize (Hle Hn').
      assert (Hm : le (foldl minimum (minimum x y) l) (minimum x y) = true).
      { apply Hle. left. }
      apply elem_of_cons in Hv as [->|Hv].
      { apply le_trans with (minimum x y); [exact Hm|].
        destruct Hxy as [[E _]|[E Hyx]]; rewrite E; [by apply le_refl | done]. }
      apply elem_of_cons in Hv as [->|Hv]; [|apply Hle; by right].
      apply le_trans with (minimum x y); [exact Hm|].
      destruct Hxy as [[E Hxy]|[E _]]; rewrite E; [done | by apply le_refl].
Qed.

Variable self : Stability.
Variable rho2var : list (Q * npfloat).

Lemma elem_of_vars_upto rho v :
  v ∈ vars_upto rho2var rho <-> exists lambd, (lambd, v) ∈ rho2var /\ lambd <= rho.
Proof.
  unfold vars_upto. rewrite list_elem_of_fmap. split.
  - intros ([k v'] & -> & H). apply list_elem_of_filter in H as [Hk H].
    by exists k.
  - intros (k & H & Hk). exists (k, v). split; [done|].
    by apply list_elem_of_filter.
Qed.

Lemma min_running_min rho m :
  min (vars_upto rho2var rho) = OK m -> running_min rho2var rho m.
Proof.
  unfold min. destruct (vars_upto rho2var rho) as [|x l] eqn:E; [done|].
  intros [= <-]. destruct (foldl_minimum x l) as (Hin & Hnan & Hle).
  unfold running_min. cbv zeta.
  setoid_rewrite <- elem_of_vars_upto. rewrite E. done.
Qed.

Lemma running_min_le m m' rho b :
  running_min rho2var rho m -> running_min rho2var rho m' ->
  le m b = true -> le m' b = true.
Proof.
  intros (Hm & Hnan & Hle) (Hm' & Hnan' & Hle') Hb.
  apply le_trans with m; [|done]. apply Hle'; [|done].
  intros Hs. apply Hnan in Hs. subst m. done.
Qed.

Lemma stable_at_min rho m :
  min (vars_upto rho2var rho) = OK m ->
  stable_at self rho2var rho <-> le m (Fin (beta self)) = true.
Proof.
  intros Hm%min_running_min. split.
  - intros (m' & Hm' & Hb). by apply (running_min_le m' m rho).
  - intros Hb. by exists m.
Qed.

Lemma min_covered rhos rho :
  covered rho2var rhos -> rho ∈ rhos -> exists m, min (vars_upto rho2var rho) = OK m.
Proof.
  intros Hc Hrho. destruct (Hc rho Hrho) as (k & v & Hkv & Hk).
  assert (Hv : v ∈ vars_upto rho2var rho).
  { apply elem_of_vars_upto. exists k. split; [done|]. rewrite Hk. apply Qle_refl. }
  unfold min. destruct (vars_upto rho2var rho); [by apply elem_of_nil in Hv|].
  eauto.
Qed.

(** The loop returns the first candidate that meets the bound, and
    none if there is none. *)
Lemma scan_spec rhos :
  covered rho2var rhos ->
  (exists l1 rho l2, rhos = l1 ++ rho :: l2 /\
     Forall (fun r => ~ stable_at self rho2var r) l1 /\
     stable_at self rho2var rho /\
     scan self rho2var rhos = OK (Some rho))
  \/ (Forall (fun r => ~ stable_at self rho2var r) rhos /\
      scan self rho2var rhos = OK None).
Proof.
  induction rhos as [|rho rhos IH]; intros Hc.
  - right. split; [constructor | done].
  - destruct (min_covered (rho :: rhos) rho Hc) as [m Hm]; [left|].
    cbn [scan]. rewrite Hm, !rbind_OK.
    pose proof (stable_at_min rho m Hm) as Hst.
    destruct (le m (Fin (beta self))) eqn:Hb.
    + left. exists [], rho, rhos. split; [done|]. split; [constructor|].
      split; [by apply Hst | done].
    + destruct IH as [(l1 & r & l2 & -> & Hl1 & Hr & Hs)|[Hall Hs]].
      { intros r Hr. apply Hc. by right. }
      * left. exists (rho :: l1), r, l2. split; [done|].
        split; [|done]. constructor; [|done]. rewrite Hst. congruence.
      * right. split; [|done]. constructor; [|done]. rewrite Hst. congruence.
Qed.

End scan.

(** ** From the scan to the selected value *)

#[global] Instance Qle_trans_inst : Transitive Qle := Qle_trans.
#[global] Instance Qle_total_inst : Total Qle.
Proof. intros x y. destruct (Qlt_le_dec x y); [left; by apply Qlt_le_weak | by right]. Qed.

Lemma sorted_Permutation rhos : sorted rhos ≡ₚ rhos.
Proof. apply merge_sort_Permutation. Qed.

Lemma sorted_StronglySorted rhos : StronglySorted Qle (sorted rhos).
Proof. apply StronglySorted_merge_sort; apply _. Qed.

Lemma elem_of_sorted rhos rho : rho ∈ sorted rhos <-> rho ∈ rhos.
Proof. by rewrite sorted_Permutation. Qed.

Lemma length_sorted rhos : length (sorted rhos) = length rhos.
Proof. by rewrite sorted_Permutation. Qed.

Lemma bind_lift_OK {A B} (a : A) (k : A -> M B) : bind (lift (OK a)) k = k a.
Proof. unfold bind, lift, OK. by destruct (k a). Qed.

Lemma bind_lift_Raise {A B} (e : exn) (k : A -> M B) :
  bind (lift (Raise e)) k = ([], Raise e).
Proof. reflexivity. Qed.

Lemma index_m2_ge {A} (l : list A) :
  (2 <= length l)%nat ->
  exists l' x y, l = l' ++ [x; y] /\ index_m2 l = OK x.
Proof.
  intros Hl. unfold index_m2. rewrite (proj2 (Nat.leb_le _ _) Hl).
  destruct (reverse l) as [|y [|x r]] eqn:E.
  - apply (f_equal length) in E. rewrite length_reverse in E. simpl in E. lia.
  - apply (f_equal length) in E. rewrite length_reverse in E. simpl in E. lia.
  - exists (reverse r), x, y.
    assert (El : l = reverse r ++ [x; y]).
    { rewrite <- (reverse_involutive l), E.
      rewrite !reverse_cons, <- app_assoc. done. }
    split; [done|]. unfold getitem. rewrite El at 1 2.
    rewrite length_app. simpl.
    replace (length (reverse r) + 2 - 2)%nat with (length (reverse r) + 0)%nat by lia.
    by rewrite lookup_app_r, Nat.add_0_r, Nat.sub_diag by lia.
Qed.

Lemma index_m2_lt {A} (l : list A) :
  (length l < 2)%nat -> index_m2 l = Raise IndexError.
Proof.
  intros Hl. unfold index_m2. by rewrite (proj2 (Nat.leb_gt _ _) Hl).
Qed.

Section select.
Variable self : Stability.
Variable rho2var : list (Q * Np.npfloat).

Lemma select_found rhos rho :
  scan self rho2var (sorted rhos) = OK (Some rho) ->
  select self rhos rho2var = (log_selected self rho, OK rho).
Proof.
  intros Hs. unfold select. rewrite Hs, bind_lift_OK.
  unfold log_selected. by destruct (verbose self).
Qed.

Lemma select_fallback rhos rho :
  scan self rho2var (sorted rhos) = OK None ->
  index_m2 (sorted rhos) = OK rho ->
  select self rhos rho2var = (log_fallback self rho, OK rho).
Proof.
  intros Hs Hi. unfold select. rewrite Hs, bind_lift_OK, Hi, bind_lift_OK.
  unfold log_fallback, log_selected. by destruct (verbose self).
Qed.

Lemma select_fallback_fails rhos :
  scan self rho2var (sorted rhos) = OK None ->
  index_m2 (sorted rhos) = Raise IndexError ->
  select self rhos rho2var = ([], Raise IndexError).
Proof.
  intros Hs Hi. unfold select. by rewrite Hs, bind_lift_OK, Hi.
Qed.

Lemma covered_sorted rhos :
  covered rho2var rhos -> covered rho2var (sorted rhos).
Proof. intros Hc rho Hrho. apply Hc. by apply elem_of_sorted. Qed.

(** The first candidate of the sorted path that meets the bound is the
    smallest one that does. *)
Lemma first_is_smallest rhos l1 rho l2 :
  sorted rhos = l1 ++ rho :: l2 ->
  Forall (fun r => ~ stable_at self rho2var r) l1 ->
  forall r, r ∈ rhos -> stable_at self rho2var r -> rho <= r.
Proof.
  intros E Hl1 r Hr Hst. apply elem_of_sorted in Hr. rewrite E in Hr.
  pose proof (sorted_StronglySorted rhos) as Hs. rewrite E in Hs.
  apply StronglySorted_app_1_r, StronglySorted_cons in Hs as [Hs _].
  apply elem_of_app in Hr as [Hr|Hr].
  - rewrite Forall_forall in Hl1. by destruct (Hl1 r Hr).
  - apply elem_of_cons in Hr as [->|Hr]; [apply Qle_refl|].
    rewrite Forall_forall in Hs. by apply Hs.
Qed.
End select.

(** ** Dictionaries *)

Module DictFacts.
Section facts.
Context {K V : Type} (eqb : K -> K -> bool).
Hypothesis eqb_sym : forall a b, eqb a b = eqb b a.
Hypothesis eqb_trans : forall a b c,
  eqb a b = true -> eqb b c = true -> eqb a c = true.

Implicit Types d : list (K * V).

Lemma eqb_congr a b c : eqb a b = true -> eqb a c = eqb b c.
Proof.
  intros Hab. destruct (eqb b c) eqn:Hbc.
  - by apply eqb_trans with b.
  - destruct (eqb a c) eqn:Hac; [|done].
    rewrite <- Hbc. symmetry. apply eqb_trans with a; [|done].
    by rewrite eqb_sym.
Qed.

Lemma get_set_eq d k0 v k :
  eqb k0 k = true -> Dict.get eqb (Dict.set eqb d k0 v) k = Some v.
Proof.
  intros Hk. induction d as [|[k' v'] d IH]; simpl.
  - by rewrite Hk.
  - destruct (eqb k' k0) eqn:E; simpl.
    + by rewrite (eqb_congr k' k0 k E), Hk.
    + destruct (eqb k' k) eqn:E'; [|done].
      rewrite (eqb_congr k' k k0 E'), eqb_sym in E. congruence.
Qed.

Lemma get_set_ne d k0 v k :
  eqb k0 k = false -> Dict.get eqb (Dict.set eqb d k0 v) k = Dict.get eqb d k.
Proof.
  intros Hk. induction d as [|[k' v'] d IH]; simpl.
  - by rewrite Hk.
  - destruct (eqb k' k0) eqn:E; simpl.
    + by rewrite (eqb_congr k' k0 k E), Hk.
    + by rewrite IH.
Qed.

Lemma set_fmap {W} (g : V -> W) d k v :
  prod_map id g <$> Dict.set eqb d k v
  = Dict.set eqb (prod_map id g <$> d) k (g v).
Proof.
  induction d as [|[k' v'] d IH]; simpl; [done|].
  destruct (eqb k' k); simpl; [done|]. f_equal. apply IH.
Qed.

Lemma set_fresh d k v :
  Forall (fun k' => eqb k' k = false) d.*1 -> Dict.set eqb d k v = d ++ [(k, v)].
Proof.
  induction d as [|[k' v'] d IH]; simpl; [done|].
  intros [E H]%Forall_cons. simpl in E. rewrite E. by rewrite IH.
Qed.

Lemma set_key_kept d k v k1 v1 :
  (k1, v1) ∈ d -> exists v1', (k1, v1') ∈ Dict.set eqb d k v.
Proof.
  induction d as [|[k' v'] d IH]; simpl; [by intros ?%elem_of_nil|].
  intros [[= <- <-]|Hin]%elem_of_cons.
  - destruct (eqb k1 k); eexists; left.
  - destruct (eqb k' k).
    + exists v1. by right.
    + destruct (IH Hin) as [v1' H]. exists v1'. by right.
Qed.

Lemma set_key_in d k v :
  eqb k k = true ->
  exists k', (k', v) ∈ Dict.set eqb d k v /\ eqb k' k = true.
Proof.
  intros Hr. induction d as [|[k' v'] d IH]; simpl.
  - exists k. split; [left | done].
  - destruct (eqb k' k) eqn:E.
    + exists k'. split; [left | done].
    + destruct IH as (k1 & H & E1). exists k1. split; [by right | done].
Qed.
End facts.
End DictFacts.

Lemma Qeq_bool_trans' a b c :
  Qeq_bool a b = true -> Qeq_bool b c = true -> Qeq_bool a c = true.
Proof. rewrite !Qeq_bool_iff. apply Qeq_trans. Qed.

Lemma Qeq_bool_comm' a b : Qeq_bool a b = Qeq_bool b a.
Proof.
  apply eq_true_iff_eq. rewrite !Qeq_bool_iff. split; intros H; by symmetry.
Qed.

Lemma Qeq_bool_true_refl a : Qeq_bool a a = true.
Proof. apply Qeq_bool_iff. reflexivity. Qed.

(** ** Sums of adjacency matrices *)

Section add.
Import Np NpFacts.

Lemma bidx_lt p i : (i < p)%nat -> bidx p i = i.
Proof. unfold bidx. intros H. destruct (Nat.eqb_spec p 1); [lia | done]. Qed.

Lemma add_square p a b :
  square p a -> square p b ->
  add a b = OK (tabulate p p (fun i j =>
                  (default 0 (at_ a i j) + default 0 (at_ b i j))%Z)).
Proof.
  intros Ha Hb. unfold add.
  rewrite (shape_square p a Ha), (shape_square p b Hb).
  unfold bdim. rewrite Nat.eqb_refl. f_equal. apply tabulate_ext.
  intros i j Hi Hj. by rewrite !bidx_lt.
Qed.

Lemma foldl_add p f col :
  Forall (square p) col ->
  foldl (fun acc y => rbind acc (fun a => add a y)) (OK (tabulate p p f)) col
  = OK (tabulate p p (fun a b =>
          (f a b + sumZ ((fun m => default 0 (at_ m a b)) <$> col))%Z)).
Proof.
  intros Hcol. revert f. induction Hcol as [|y col Hy _ IH]; intros f.
  - simpl. f_equal. apply tabulate_ext. intros. unfold sumZ. simpl. lia.
  - cbn [foldl]. rewrite rbind_OK.
    rewrite (add_square p _ y (square_tabulate p f) Hy). rewrite IH.
    f_equal. apply tabulate_ext. intros i j Hi Hj.
    rewrite at_tabulate by done. unfold sumZ. rewrite fmap_cons.
    cbn [foldr]. change (default 0%Z (Some (f i j))) with (f i j). lia.
Qed.

Lemma reduce_add p col :
  col <> [] -> Forall (square p) col -> reduce add col = OK (msum p col).
Proof.
  intros Hne Hcol. destruct col as [|x col]; [done|].
  apply Forall_cons in Hcol as [Hx Hcol]. unfold reduce.
  rewrite (square_as_tabulate 0%Z p x Hx) at 1. rewrite (foldl_add _ _ _ Hcol).
  done.
Qed.

Lemma sumZ_Permutation l l' : l ≡ₚ l' -> sumZ l = sumZ l'.
Proof.
  unfold sumZ. induction 1; simpl; lia.
Qed.

Lemma msum_Permutation p col col' : col ≡ₚ col' -> msum p col = msum p col'.
Proof.
  intros H. unfold msum. apply tabulate_ext. intros a b _ _.
  apply sumZ_Permutation. by apply fmap_Permutation.
Qed.
End add.

(** ** The instabilities of a valid input *)

Lemma foldl_step_OK {A X} (step : result A -> X -> result A) (g : A -> X -> A)
    (l : list X) (a : A) :
  (forall x a, x ∈ l -> step (OK a) x = OK (g a x)) ->
  foldl step (OK a) l = OK (foldl g a l).
Proof.
  revert a. induction l as [|x l IH]; intros a H; [done|].
  cbn [foldl]. rewrite H by left. apply IH. intros y b Hy. apply H. by right.
Qed.

Lemma foldl_ext_in {A X} (g g' : A -> X -> A) (l : list X) (a : A) :
  (forall x a, x ∈ l -> g a x = g' a x) -> foldl g a l = foldl g' a l.
Proof.
  revert a. induction l as [|x l IH]; intros a H; [done|].
  cbn [foldl]. rewrite H by left. apply IH. intros y b Hy. apply H. by right.
Qed.

Lemma elem_of_zip_seq {A} (l : list A) i x :
  (i, x) ∈ zip (seq 0 (length l)) l <-> l !! i = Some x.
Proof.
  rewrite list_elem_of_lookup. split.
  - intros [k Hk]. apply lookup_zip_with_Some in Hk as (i' & x' & [= <- <-] & Hi & Hx).
    apply lookup_seq in Hi as [-> _]. done.
  - intros Hx. exists i. apply lookup_zip_with_Some. exists i, x.
    split; [done|]. split; [|done]. apply lookup_seq. split; [done|].
    by apply lookup_lt_Some in Hx.
Qed.

Section pipeline.
Import Np NpFacts.
Variable self : Stability.
Variable p : nat.

Implicit Types s2d : list (sample * list (ndarray Q)).

Lemma string_eqb_fresh (keys : list sample) (s : sample) :
  s ∉ keys -> Forall (fun k' => String.eqb k' s = false) keys.
Proof.
  intros Hs. apply Forall_forall. intros k Hk. apply String.eqb_neq.
  intros ->. done.
Qed.

Lemma foldl_sample2adjs acc s2d :
  NoDup (acc.*1 ++ s2d.*1) ->
  Forall (fun deps : list (ndarray Q) => Forall (square p) deps) s2d.*2 ->
  foldl (fun acc '(sample, deps) =>
           sample2adjs <- acc ;;
           adjs <- mapM (_dep2adj self) deps ;;
           OK (Dict.set String.eqb sample2adjs sample adjs))
        (OK acc) s2d
  = OK (acc ++ adjs_closed self p s2d).
Proof.
  revert acc. induction s2d as [|[s deps] s2d IH]; intros acc Hnd Hsq.
  - by rewrite app_nil_r.
  - cbn [foldl]. rewrite rbind_OK.
    rewrite fmap_cons in Hsq. apply Forall_cons in Hsq as [Hdeps Hsq].
    rewrite (mapM_OK _ (adj_closed self p)), rbind_OK.
    2:{ intros dep Hdep. apply dep2adj_square.
        rewrite Forall_forall in Hdeps. by apply Hdeps. }
    rewrite DictFacts.set_fresh.
    2:{ apply string_eqb_fresh. apply NoDup_app in Hnd as (_ & Hd & _).
        intros Hin. apply (Hd s Hin). left. }
    rewrite IH.
    + unfold adjs_closed. rewrite fmap_cons, <- app_assoc. done.
    + rewrite fmap_app, <- app_assoc. exact Hnd.
    + exact Hsq.
Qed.

Lemma sample2adjs_valid rhos s2d :
  valid_input p rhos s2d ->
  sample2adjs_of self rhos s2d = OK (adjs_closed self p s2d).
Proof.
  intros (_ & Hnd & Hv). unfold sample2adjs_of.
  assert (Hlen : forallb (fun deps : list (ndarray Q) =>
                            (length rhos =? length deps)%nat)
                         (Dict.values s2d) = true).
  { apply forallb_forall. intros deps Hdeps%list_elem_of_In.
    rewrite Forall_forall in Hv. destruct (Hv deps Hdeps) as [-> _].
    apply Nat.eqb_refl. }
  rewrite Hlen. apply (foldl_sample2adjs [] s2d); [done|].
  eapply Forall_impl; [exact Hv|]. by intros deps [_ H].
Qed.

Lemma valid_adjs_closed rhos s2d :
  valid_input p rhos s2d -> valid_adjs p rhos (adjs_closed self p s2d).
Proof.
  intros (Hne & _ & Hv). split.
  - unfold adjs_closed. by destruct s2d.
  - unfold adjs_closed. rewrite <- list_fmap_compose.
    apply Forall_fmap, Forall_forall. intros [s deps] Hin. simpl.
    rewrite Forall_forall in Hv.
    destruct (Hv deps) as [Hl Hsq].
    { apply list_elem_of_fmap. by exists (s, deps). }
    rewrite length_fmap. split; [done|].
    apply Forall_fmap, Forall_forall. intros dep _. apply square_tabulate.
Qed.

Lemma col_square rhos s2a i :
  valid_adjs p rhos s2a -> (i < length rhos)%nat ->
  col s2a i <> [] /\ Forall (square p) (col s2a i) /\
  mapM (fun vals : list (ndarray Z) => getitem vals i) (Dict.values s2a)
  = OK (col s2a i).
Proof.
  intros [Hne Hv] Hi. split; [|split].
  - unfold col. by destruct s2a.
  - unfold col. apply Forall_fmap, Forall_forall. intros vals Hvals. simpl.
    rewrite Forall_forall in Hv. destruct (Hv vals Hvals) as [Hl Hsq].
    destruct (lookup_lt_is_Some_2 vals i) as [m Hm]; [lia|].
    rewrite Hm. simpl. rewrite Forall_forall in Hsq. apply Hsq.
    by eapply list_elem_of_lookup_2.
  - apply mapM_OK. intros vals Hvals. unfold getitem.
    rewrite Forall_forall in Hv. destruct (Hv vals Hvals) as [Hl _].
    destruct (lookup_lt_is_Some_2 vals i) as [m Hm]; [lia|].
    by rewrite Hm.
Qed.

Lemma rho2adjs_valid rhos s2a :
  valid_adjs p rhos s2a ->
  rho2adjs_of rhos s2a = OK (rho2adjs_closed p rhos s2a).
Proof.
  intros Hv. unfold rho2adjs_of, rho2adjs_closed.
  apply foldl_step_OK. intros [i rho] d Hin.
  apply elem_of_zip_seq, lookup_lt_Some in Hin.
  destruct (col_square rhos s2a i Hv Hin) as (Hne & Hsq & Hcol).
  rewrite rbind_OK, Hcol, rbind_OK, (reduce_add p _ Hne Hsq). done.
Qed.

Lemma set_values_Forall {V} (P : V -> Prop) (d : list (Q * V)) k v :
  Forall P d.*2 -> P v -> Forall P (Dict.set Qeq_bool d k v).*2.
Proof.
  intros Hd Hv. induction d as [|[k' v'] d IH]; simpl.
  - by constructor.
  - apply Forall_cons in Hd as [Hv' Hd]. destruct (Qeq_bool k' k); simpl.
    + by constructor.
    + constructor; [done|]. by apply IH.
Qed.

Lemma rho2adjs_closed_square rhos s2a :
  Forall (square p) (rho2adjs_closed p rhos s2a).*2.
Proof.
  unfold rho2adjs_closed.
  generalize (zip (seq 0 (length rhos)) rhos).
  assert (H0 : Forall (square p) ([] : list (Q * ndarray Z)).*2) by constructor.
  revert H0. generalize ([] : list (Q * ndarray Z)).
  intros d Hd l. revert d Hd. induction l as [|[i rho] l IH]; intros d Hd; [done|].
  cbn [foldl]. apply IH. apply set_values_Forall; [done|].
  apply square_tabulate.
Qed.

Lemma square_map1 {A B} (g : A -> B) (a : ndarray A) :
  square p a -> square p (map1 g a).
Proof.
  intros [Hl Hr]. split; unfold map1.
  - by rewrite length_fmap.
  - apply Forall_fmap. eapply Forall_impl; [exact Hr|].
    intros r Hr'. simpl. by rewrite length_fmap.
Qed.

Lemma rho2var_valid (s2a : list (sample * list (ndarray Z)))
    (r2a : list (Q * ndarray Z)) :
  Forall (square p) r2a.*2 ->
  rho2var_of s2a r2a
  = OK ((fun kv : Q * ndarray Z =>
           (kv.1, adj_var_closed p
                    (div_scalar kv.2 (inject_Z (Z.of_nat (length s2a))))))
        <$> r2a).
Proof.
  intros Hsq. unfold rho2var_of.
  rewrite (mapM_OK _ (fun kv : Q * ndarray Q => (kv.1, adj_var_closed p kv.2))).
  - f_equal. rewrite <- list_fmap_compose. apply list_fmap_ext.
    by intros _ [rho adj] _.
  - intros [rho m] Hin. apply list_elem_of_fmap in Hin as ([rho' adj] & [= -> ->] & Hin).
    rewrite (adj_var_square p); [done|]. apply square_map1.
    rewrite Forall_forall in Hsq. apply Hsq.
    apply list_elem_of_fmap. by exists (rho', adj).
Qed.

Lemma fmap_foldl_set {X V W} (g : V -> W) (key : X -> Q) (val : X -> V)
    (d : list (Q * V)) (l : list X) :
  (fun kv : Q * V => (kv.1, g kv.2))
    <$> foldl (fun d x => Dict.set Qeq_bool d (key x) (val x)) d l
  = foldl (fun d x => Dict.set Qeq_bool d (key x) (g (val x)))
          ((fun kv : Q * V => (kv.1, g kv.2)) <$> d) l.
Proof.
  revert d. induction l as [|x l IH]; intros d; [done|].
  cbn [foldl]. rewrite IH. f_equal.
  apply (DictFacts.set_fmap Qeq_bool g).
Qed.

Lemma mean_adj_closed rhos s2d i :
  valid_input p rhos s2d -> (i < length rhos)%nat ->
  div_scalar (msum p (col (adjs_closed self p s2d) i))
             (inject_Z (Z.of_nat (length (adjs_closed self p s2d))))
  = mean_adj_at self p s2d i.
Proof.
  intros (_ & _ & Hv) Hi. unfold div_scalar, msum, mean_adj_at.
  rewrite map1_tabulate. apply tabulate_ext. intros a b _ _.
  unfold adjs_closed at 2. rewrite length_fmap. do 3 f_equal.
  unfold col, adjs_closed. rewrite <- !list_fmap_compose.
  apply list_fmap_ext. intros k [s deps] Hk. simpl.
  rewrite Forall_forall in Hv. destruct (Hv deps) as [Hl Hsq].
  { apply list_elem_of_fmap. exists (s, deps). split; [done|].
    by eapply list_elem_of_lookup_2. }
  destruct (lookup_lt_is_Some_2 deps i) as [dep Hdep]; [lia|].
  unfold adj_entry. rewrite list_lookup_fmap, Hdep. simpl.
  rewrite (dep2adj_square self p dep); [done|].
  rewrite Forall_forall in Hsq. apply Hsq. by eapply list_elem_of_lookup_2.
Qed.

(** On a valid input the first part of [optimal_reg] raises nothing and
    builds [rho2var_closed]. *)
Lemma instabilities_valid rhos s2d :
  valid_input p rhos s2d ->
  instabilities self rhos s2d = OK (rho2var_closed self p rhos s2d).
Proof.
  intros Hv. unfold instabilities.
  rewrite (sample2adjs_valid rhos s2d Hv), rbind_OK.
  rewrite (rho2adjs_valid rhos _ (valid_adjs_closed rhos s2d Hv)), rbind_OK.
  rewrite rho2var_valid by apply rho2adjs_closed_square.
  f_equal. unfold rho2adjs_closed, rho2var_closed.
  rewrite (foldl_ext_in _
             (fun d (x : nat * Q) =>
                Dict.set Qeq_bool d x.2 (msum p (col (adjs_closed self p s2d) x.1))))
    by (by intros [i rho] d _).
  rewrite (fmap_foldl_set
             (fun adj => adj_var_closed p
                (div_scalar adj (inject_Z (Z.of_nat (length (adjs_closed self p s2d))))))
             snd (fun x : nat * Q => msum p (col (adjs_closed self p s2d) x.1))).
  apply foldl_ext_in. intros [i rho] d Hin.
  apply elem_of_zip_seq, lookup_lt_Some in Hin. simpl.
  by rewrite (mean_adj_closed rhos s2d i Hv Hin).
Qed.

End pipeline.

(** ** What [instabilities] returns, whatever the input *)

Section coverage.
Import Np.
Variable self : Stability.

Lemma foldl_step_Raise {A X} (step : result A -> X -> result A) e (l : list X) :
  (forall x, step (inl e) x = inl e) -> foldl step (inl e) l = inl e.
Proof.
  intros H. induction l as [|x l IH]; [done|]. cbn [foldl]. by rewrite H.
Qed.

(** Without a subsample no sum is stored, so that [n_adj], which is 0
    then, divides nothing. *)
Lemma rho2adjs_without_samples rhos d : rho2adjs_of rhos [] = OK d -> d = [].
Proof.
  destruct rhos as [|rho rhos]; [by intros [= <-]|].
  unfold rho2adjs_of. cbn [length seq zip zip_with foldl]. simpl.
  rewrite foldl_step_Raise; [done|]. by intros [].
Qed.

Lemma mapM_keys {A V W} (f : A * V -> result (A * W)) (l : list (A * V)) l' :
  (forall x y, f x = OK y -> y.1 = x.1) ->
  mapM f l = OK l' -> l'.*1 = l.*1.
Proof.
  intros Hf. revert l'. induction l as [|x l IH]; intros l'; simpl.
  - by intros [= <-].
  - destruct (f x) as [e|y] eqn:E; [done|]. simpl.
    destruct (mapM f l) as [e|ys]; [done|]. simpl. intros [= <-].
    simpl. rewrite (Hf x y E). f_equal. by apply IH.
Qed.

Lemma rho2adjs_keys (s2a : list (sample * list (ndarray Z)))
    (l : list (nat * Q)) d0 d :
  foldl (fun acc '(i, rho) =>
           rho2adjs <- acc ;;
           col <- mapM (fun vals : list (ndarray Z) => getitem vals i)
                       (Dict.values s2a) ;;
           s <- reduce Np.add col ;;
           OK (Dict.set Qeq_bool rho2adjs rho s))
        (OK d0) l = OK d ->
  (forall k v, (k, v) ∈ d0 -> exists v', (k, v') ∈ d) /\
  (forall i rho, (i, rho) ∈ l -> exists k v, (k, v) ∈ d /\ k == rho).
Proof.
  revert d0. induction l as [|[i rho] l IH]; intros d0.
  - intros [= <-]. split; [eauto|]. by intros i rho ?%elem_of_nil.
  - cbn [foldl]. rewrite rbind_OK.
    destruct (mapM _ (Dict.values s2a)) as [e|c];
      [cbn [rbind]; rewrite foldl_step_Raise by (by intros []); done|].
    rewrite rbind_OK.
    destruct (reduce add c) as [e|s];
      [cbn [rbind]; rewrite foldl_step_Raise by (by intros []); done|].
    rewrite rbind_OK. intros Hd. destruct (IH _ Hd) as [Hkeep Hl]. split.
    + intros k v Hkv.
      destruct (DictFacts.set_key_kept Qeq_bool d0 rho s k v Hkv) as [v1 H1].
      eauto.
    + intros j r [[= -> ->]|Hin]%elem_of_cons; [|eauto].
      destruct (DictFacts.set_key_in Qeq_bool d0 rho s (Qeq_bool_true_refl rho))
        as (k & Hk & Ek).
      destruct (Hkeep _ _ Hk) as [v' Hv']. exists k, v'.
      split; [done|]. by apply Qeq_bool_iff.
Qed.

Lemma instabilities_covered rhos s2d d :
  instabilities self rhos s2d = OK d -> covered d rhos.
Proof.
  unfold instabilities.
  destruct (sample2adjs_of self rhos s2d) as [e|s2a]; [done|]. rewrite rbind_OK.
  destruct (rho2adjs_of rhos s2a) as [e|r2a] eqn:E; [done|]. rewrite rbind_OK.
  intros Hd. unfold rho2var_of in Hd.
  apply mapM_keys in Hd.
  2:{ intros [rho m] y. destruct (_adj_var m); [done|]. by intros [= <-]. }
  rewrite <- list_fmap_compose in Hd.
  assert (Hk : d.*1 = r2a.*1).
  { rewrite Hd. apply list_fmap_ext. by intros _ [] _. }
  apply rho2adjs_keys in E as [_ Hl].
  intros rho Hrho. apply list_elem_of_lookup in Hrho as [i Hi].
  destruct (Hl i rho) as (k & v & Hkv & Ek); [by apply elem_of_zip_seq|].
  assert (Hin : k ∈ d.*1).
  { rewrite Hk. apply list_elem_of_fmap. by exists (k, v). }
  apply list_elem_of_fmap in Hin as ([k' w] & -> & Hin). eauto.
Qed.

Lemma optimal_reg_select rhos s2d d :
  instabilities self rhos s2d = OK d ->
  optimal_reg self rhos s2d = select self rhos d.
Proof. intros H. unfold optimal_reg. by rewrite H, bind_lift_OK. Qed.

Lemma optimal_reg_Raise rhos s2d e :
  instabilities self rhos s2d = Raise e ->
  optimal_reg self rhos s2d = ([], Raise e).
Proof. intros H. unfold optimal_reg. by rewrite H. Qed.
End coverage.

(** ** [optimal_reg] *)

Ltac solve_not_elem :=
  let H := fresh in
  intros H; repeat (apply elem_of_cons in H as [H|H]; [discriminate H|]);
  by apply elem_of_nil in H.

Ltac solve_valid_input :=
  split; [discriminate|];
  split; [repeat (constructor; [solve_not_elem|]); constructor|];
  repeat (constructor; [split; [reflexivity|];
                        repeat (constructor; [split; [reflexivity | repeat constructor]|]);
                        constructor|]);
  constructor.

Section optimal_reg_claims.
Import Np NpFacts.

(** C1. On a valid input the scores are computed without an exception;
    and if some candidate's running minimum is [<= beta], the call
    returns the first such candidate of the ascending path, which is the
    smallest such candidate, and warns about nothing. In particular, for
    the path [0.1; 0.3; 0.5] with scores [0.6; 0.3; 0.02] and
    [beta = 0.05] the scan selects 0.5 without a warning. *)
Theorem optimal_reg_first_stable (self : Stability) (p : nat) (rhos : list Q)
    (sample2deps : list (sample * list (ndarray Q))) :
  valid_input p rhos sample2deps ->
  exists rho2var, instabilities self rhos sample2deps = OK rho2var /\
    (forall rho, rho ∈ rhos -> stable_at self rho2var rho ->
       exists r l1 l2,
         sorted rhos = l1 ++ r :: l2 /\
         Forall (fun r' => ~ stable_at self rho2var r') l1 /\
         stable_at self rho2var r /\
         (forall r', r' ∈ rhos -> stable_at self rho2var r' -> r <= r') /\
         optimal_reg self rhos sample2deps = (log_selected self r, OK r) /\
         has_warning (optimal_reg self rhos sample2deps) = false) /\
    select default_Stability [0.1; 0.3; 0.5]
           [(0.1, Fin 0.6); (0.3, Fin 0.3); (0.5, Fin 0.02)]
    = ([Printed 0.5], OK 0.5).
Proof.
  intros Hv. exists (rho2var_closed self p rhos sample2deps).
  pose proof (instabilities_valid self p rhos sample2deps Hv) as Hd.
  split; [done|]. split; [|reflexivity].
  intros rho Hrho Hst.
  pose proof (instabilities_covered self _ _ _ Hd) as Hc.
  destruct (scan_spec self _ (sorted rhos) (covered_sorted _ _ Hc))
    as [(l1 & r & l2 & E & Hl1 & Hr & Hs)|[Hall _]].
  - exists r, l1, l2. split; [done|]. split; [done|]. split; [done|].
    split; [by eapply first_is_smallest|].
    rewrite (optimal_reg_select self _ _ _ Hd), (select_found _ _ _ _ Hs).
    split; [done|]. unfold has_warning, log_selected. simpl.
    by destruct (verbose self).
  - rewrite Forall_forall in Hall. destruct (Hall rho); [|done].
    by apply elem_of_sorted.
Qed.

Lemma optimal_reg_first_stable_witness :
  exists rho2var,
    instabilities default_Stability Ex.rhos Ex.agree_last = OK rho2var /\
    optimal_reg default_Stability Ex.rhos Ex.agree_last = ([Printed 0.5], OK 0.5).
Proof.
  destruct (optimal_reg_first_stable default_Stability 3 Ex.rhos Ex.agree_last)
    as (d & Hd & _).
  - solve_valid_input.
  - exists d. split; [exact Hd | reflexivity].
Defined.

(** C2, as amended. When no candidate's running minimum is [<= beta],
    the call returns the last but one element of the sorted path
    (duplicates are not removed) after a warning that states it; when the
    path has fewer than two elements it raises IndexError instead. *)
Theorem optimal_reg_fallback (self : Stability) (rhos : list Q)
    (sample2deps : list (sample * list (ndarray Q)))
    (rho2var : list (Q * npfloat)) :
  instabilities self rhos sample2deps = OK rho2var ->
  (forall rho, rho ∈ rhos -> ~ stable_at self rho2var rho) ->
  ((2 <= length rhos)%nat ->
     exists l x y, sorted rhos = l ++ [x; y] /\
       optimal_reg self rhos sample2deps = (log_fallback self x, OK x)) /\
  ((length rhos < 2)%nat ->
     optimal_reg self rhos sample2deps = ([], Raise IndexError)).
Proof.
  intros Hd Hno.
  pose proof (instabilities_covered self _ _ _ Hd) as Hc.
  rewrite (optimal_reg_select self _ _ _ Hd).
  assert (Hs : scan self rho2var (sorted rhos) = OK None).
  { destruct (scan_spec self _ (sorted rhos) (covered_sorted _ _ Hc))
      as [(l1 & r & l2 & E & _ & Hr & _)|[_ Hs]]; [|done].
    destruct (Hno r); [|done]. apply elem_of_sorted. rewrite E.
    apply elem_of_app. right. left. }
  split; intros Hl.
  - destruct (index_m2_ge (sorted rhos)) as (l & x & y & E & Hi).
    { by rewrite length_sorted. }
    exists l, x, y. split; [done|]. by apply select_fallback.
  - apply select_fallback_fails; [done|]. apply index_m2_lt.
    by rewrite length_sorted.
Qed.

Lemma not_stable_by_min self rho2var rho m :
  min (vars_upto rho2var rho) = OK m -> le m (Fin (beta self)) = false ->
  ~ stable_at self rho2var rho.
Proof. intros Hm Hb Hst. apply (stable_at_min self _ _ _ Hm) in Hst. congruence. Qed.

Lemma optimal_reg_fallback_witness :
  optimal_reg default_Stability Ex.rhos Ex.agree_never
  = ([Warning 0.3; Printed 0.3], OK 0.3).
Proof.
  destruct (optimal_reg_fallback default_Stability Ex.rhos Ex.agree_never
              [(0.1, Fin (96 # 192)); (0.3, Fin (32 # 192)); (0.5, Fin (32 # 192))])
    as [H _].
  - reflexivity.
  - intros rho Hrho.
    repeat (apply elem_of_cons in Hrho as [->|Hrho]);
      [eapply not_stable_by_min; reflexivity..|by apply elem_of_nil in Hrho].
  - destruct H as (l & x & y & E & H); [simpl; lia|]. reflexivity.
Defined.

(** C2, as stated, fails: a path with a single distinct value, given
    twice, makes the fallback return that value. *)
Lemma fallback_keeps_duplicates :
  ~ (forall (self : Stability) (rhos : list Q)
            (sample2deps : list (sample * list (ndarray Q)))
            (rho2var : list (Q * npfloat)),
       instabilities self rhos sample2deps = OK rho2var ->
       (forall rho, rho ∈ rhos -> ~ stable_at self rho2var rho) ->
       (forall r r', r ∈ rhos -> r' ∈ rhos -> r == r') ->
       exists log e, optimal_reg self rhos sample2deps = (log, Raise e)).
Proof.
  intros H.
  destruct (H default_Stability Ex.twice Ex.differ_both [(0.5, Fin (2 # 4))])
    as (log & e & He).
  - reflexivity.
  - intros rho Hrho.
    repeat (apply elem_of_cons in Hrho as [->|Hrho]);
      [eapply not_stable_by_min; reflexivity..|by apply elem_of_nil in Hrho].
  - intros r r' Hr Hr'.
    repeat (apply elem_of_cons in Hr as [->|Hr]);
      repeat (apply elem_of_cons in Hr' as [->|Hr']);
      try reflexivity; by apply elem_of_nil in Hr || by apply elem_of_nil in Hr'.
  - vm_compute in He. discriminate He.
Qed.
End optimal_reg_claims.

Section aggregation.
Import Np NpFacts.

Lemma get_foldl_other {X V} (key : X -> Q) (val : X -> V) (k : Q)
    (l : list X) (d : list (Q * V)) :
  Forall (fun x => Qeq_bool (key x) k = false) l ->
  Dict.get Qeq_bool (foldl (fun d x => Dict.set Qeq_bool d (key x) (val x)) d l) k
  = Dict.get Qeq_bool d k.
Proof.
  intros Hl. revert d. induction Hl as [|x l Hx _ IH]; intros d; [done|].
  cbn [foldl]. rewrite IH.
  by apply (DictFacts.get_set_ne Qeq_bool Qeq_bool_comm' Qeq_bool_trans').
Qed.

(** The entry of a key is the one written at its last position. *)
Lemma get_foldl_last {X V} (key : X -> Q) (val : X -> V) (k : Q)
    (l1 : list X) (x : X) (l2 : list X) (d : list (Q * V)) :
  Qeq_bool (key x) k = true ->
  Forall (fun y => Qeq_bool (key y) k = false) l2 ->
  Dict.get Qeq_bool
    (foldl (fun d x => Dict.set Qeq_bool d (key x) (val x)) d (l1 ++ x :: l2)) k
  = Some (val x).
Proof.
  intros Hx Hl2. rewrite foldl_app. cbn [foldl].
  rewrite get_foldl_other by done.
  by apply (DictFacts.get_set_eq Qeq_bool Qeq_bool_comm' Qeq_bool_trans').
Qed.

Lemma rho2var_closed_get self p rhos s2d i rho :
  rhos !! i = Some rho ->
  (forall j rho', (i < j)%nat -> rhos !! j = Some rho' -> ~ rho' == rho) ->
  Dict.get Qeq_bool (rho2var_closed self p rhos s2d) rho
  = Some (adj_var_closed p (mean_adj_at self p s2d i)).
Proof.
  intros Hi Hlast. unfold rho2var_closed.
  rewrite (foldl_ext_in _
             (fun d (x : nat * Q) =>
                Dict.set Qeq_bool d x.2
                  (adj_var_closed p (mean_adj_at self p s2d x.1))))
    by (by intros [] ? _).
  assert (Hz : zip (seq 0 (length rhos)) rhos !! i = Some (i, rho)).
  { apply lookup_zip_with_Some. exists i, rho. split; [done|].
    split; [|done]. apply lookup_seq. split; [done|]. by apply lookup_lt_Some in Hi. }
  rewrite <- (take_drop_middle _ _ _ Hz).
  rewrite (get_foldl_last snd
             (fun x : nat * Q => adj_var_closed p (mean_adj_at self p s2d x.1))).
  - done.
  - apply Qeq_bool_true_refl.
  - apply Forall_forall. intros [j rho'] Hin.
    apply list_elem_of_lookup in Hin as [k Hk]. rewrite lookup_drop in Hk.
    apply lookup_zip_with_Some in Hk as (j' & r' & [= <- <-] & Hj & Hr).
    apply lookup_seq in Hj as [-> _]. simpl.
    destruct (Qeq_bool rho' rho) eqn:E; [|done].
    apply Qeq_bool_iff in E. destruct (Hlast (S i + k)%nat rho'); [lia|done..].
Qed.

(** C7, as amended. On a valid input, for every position [i] of the path
    whose value does not occur again at a later position, the score
    recorded for [rhos[i]] and used by the selection is the score of the
    mean adjacency built from every subsample's [i]-th matrix; the path
    need not be sorted. *)
Theorem aggregation_by_position (self : Stability) (p : nat) (rhos : list Q)
    (sample2deps : list (sample * list (ndarray Q))) (i : nat) (rho : Q) :
  valid_input p rhos sample2deps ->
  rhos !! i = Some rho ->
  (forall j rho', (i < j)%nat -> rhos !! j = Some rho' -> ~ rho' == rho) ->
  exists rho2var var,
    instabilities self rhos sample2deps = OK rho2var /\
    optimal_reg self rhos sample2deps = select self rhos rho2var /\
    Dict.get Qeq_bool rho2var rho = Some var /\
    _adj_var (mean_adj_at self p sample2deps i) = OK var.
Proof.
  intros Hv Hi Hlast.
  pose proof (instabilities_valid self p rhos sample2deps Hv) as Hd.
  exists (rho2var_closed self p rhos sample2deps).
  exists (adj_var_closed p (mean_adj_at self p sample2deps i)).
  split; [done|]. split; [by apply optimal_reg_select|].
  split; [by apply rho2var_closed_get|].
  apply adj_var_square, square_tabulate.
Qed.

Lemma aggregation_by_position_witness :
  exists rho2var var,
    instabilities default_Stability Ex.rhos Ex.agree_last = OK rho2var /\
    Dict.get Qeq_bool rho2var 0.3 = Some var /\
    _adj_var (mean_adj_at default_Stability 3 Ex.agree_last 1) = OK var.
Proof.
  destruct (aggregation_by_position default_Stability 3 Ex.rhos Ex.agree_last
              1 0.3) as (d & var & Hd & _ & Hg & Hvar).
  - solve_valid_input.
  - reflexivity.
  - intros j rho' Hj Hr.
    destruct j as [|[|[|j]]]; [lia..| |by destruct j].
    injection Hr as <-. discriminate.
  - exists d, var. done.
Defined.

(** C7, as stated, fails: when a value occurs twice in the path, the
    score recorded for it comes from the later position only. *)
Lemma duplicate_value_overwrites :
  ~ (forall (self : Stability) (p : nat) (rhos : list Q)
            (sample2deps : list (sample * list (ndarray Q))) (i : nat) (rho : Q),
       valid_input p rhos sample2deps ->
       rhos !! i = Some rho ->
       exists rho2var var,
         instabilities self rhos sample2deps = OK rho2var /\
         Dict.get Qeq_bool rho2var rho = Some var /\
         _adj_var (mean_adj_at self p sample2deps i) = OK var).
Proof.
  intros H.
  destruct (H default_Stability 2%nat Ex.twice Ex.differ_first 0%nat 0.5)
    as (d & var & Hd & Hg & Hvar).
  - solve_valid_input.
  - reflexivity.
  - vm_compute in Hd. injection Hd as <-.
    vm_compute in Hg. injection Hg as <-.
    vm_compute in Hvar. discriminate Hvar.
Qed.

(** C10. On a valid input the call does not depend on the order in which
    the subsamples are enumerated. *)
Theorem optimal_reg_Permutation (self : Stability) (p : nat) (rhos : list Q)
    (sample2deps sample2deps' : list (sample * list (ndarray Q))) :
  valid_input p rhos sample2deps ->
  sample2deps ≡ₚ sample2deps' ->
  optimal_reg self rhos sample2deps' = optimal_reg self rhos sample2deps.
Proof.
  intros Hv Hp.
  assert (Hv' : valid_input p rhos sample2deps').
  { destruct Hv as (Hne & Hnd & Hf). split; [|split].
    - intros ->. by apply Permutation_nil_r in Hp.
    - by rewrite <- Hp.
    - by rewrite <- Hp. }
  unfold optimal_reg.
  rewrite (instabilities_valid self p rhos _ Hv).
  rewrite (instabilities_valid self p rhos _ Hv').
  assert (E : rho2var_closed self p rhos sample2deps'
              = rho2var_closed self p rhos sample2deps); [|by rewrite E].
  unfold rho2var_closed. apply foldl_ext_in.
  intros [i rho] d _. do 2 f_equal. unfold mean_adj_at.
  apply tabulate_ext. intros a b _ _.
  rewrite (Permutation_length Hp). do 2 f_equal.
  apply sumZ_Permutation. apply fmap_Permutation. by symmetry.
Qed.

Lemma optimal_reg_Permutation_witness :
  optimal_reg default_Stability Ex.rhos (reverse Ex.agree_last)
  = optimal_reg default_Stability Ex.rhos Ex.agree_last.
Proof.
  apply (optimal_reg_Permutation default_Stability 3).
  - solve_valid_input.
  - symmetry. apply reverse_Permutation.
Defined.

(** C8, as amended. A subsample whose sequence is not as long as the
    path makes the call fail at once on its assertion, with nothing
    has_warning or printed. An empty [sample2deps] passes that check: the
    call then fails later, with a TypeError when the path is not empty
    (the sum over no subsample) and with an IndexError when it is (the
    fallback). *)
Theorem optimal_reg_checks_lengths (self : Stability) (rhos : list Q)
    (sample2deps : list (sample * list (ndarray Q))) :
  ((exists deps, deps ∈ sample2deps.*2 /\ length deps <> length rhos) ->
   optimal_reg self rhos sample2deps
   = ([], Raise (AssertionError
                   "Dependency matrices for same values of regularization are missing."))) /\
  (sample2deps = [] ->
   optimal_reg self rhos sample2deps
   = ([], Raise (match rhos with [] => IndexError | _ :: _ => TypeError end))).
Proof.
  split.
  - intros (deps & Hin & Hlen). apply optimal_reg_Raise.
    unfold instabilities, sample2adjs_of.
    destruct (forallb _ (Dict.values sample2deps)) eqn:E; [|done].
    rewrite forallb_forall in E. specialize (E deps).
    rewrite <- list_elem_of_In in E. apply E, Nat.eqb_eq in Hin. congruence.
  - intros ->. destruct rhos as [|rho rhos]; [reflexivity|].
    apply optimal_reg_Raise. unfold instabilities. simpl.
    unfold rho2adjs_of. cbn [length seq zip zip_with foldl]. simpl.
    rewrite foldl_step_Raise; [done|]. by intros [].
Qed.

Lemma optimal_reg_checks_lengths_witness :
  optimal_reg default_Stability Ex.rhos [("a"%string, [Ex.full3])]
  = ([], Raise (AssertionError
                  "Dependency matrices for same values of regularization are missing."))
  /\ optimal_reg default_Stability Ex.rhos [] = ([], Raise TypeError).
Proof.
  destruct (optimal_reg_checks_lengths default_Stability Ex.rhos
              [("a"%string, [Ex.full3])]) as [H1 _].
  destruct (optimal_reg_checks_lengths default_Stability Ex.rhos []) as [_ H2].
  split.
  - apply H1. exists [Ex.full3]. split; [left | discriminate].
  - by apply H2.
Defined.

(** C8, as stated, fails: with no subsample at all the assertion holds
    and the exception is another one. *)
Lemma empty_samples_pass_the_check :
  ~ (forall (self : Stability) (rhos : list Q)
            (sample2deps : list (sample * list (ndarray Q))),
       sample2deps = [] \/
       (exists deps, deps ∈ sample2deps.*2 /\ length deps <> length rhos) ->
       exists msg,
         optimal_reg self rhos sample2deps = ([], Raise (AssertionError msg))).
Proof.
  intros H. destruct (H default_Stability [0.5] []) as [msg Hm]; [by left|].
  discriminate Hm.
Qed.
End aggregation.


(** * Further properties of the code *)

(** ** The outcomes of [optimal_reg] *)

Section outcomes.
Import Np.
Variable self : Stability.

Lemma scan_same_beta (self' : Stability) rho2var rhos :
  beta self' = beta self -> scan self' rho2var rhos = scan self rho2var rhos.
Proof.
  intros Hb. induction rhos as [|rho rhos IH]; [done|].
  cbn [scan]. by rewrite Hb, IH.
Qed.

(** What [select] does with scores that cover the path. *)
Lemma select_outcome rhos rho2var :
  covered rho2var rhos ->
  (exists r l1 l2, sorted rhos = l1 ++ r :: l2 /\
     Forall (fun r' => ~ stable_at self rho2var r') l1 /\
     stable_at self rho2var r /\
     select self rhos rho2var = (log_selected self r, OK r))
  \/ ((forall rho, rho ∈ rhos -> ~ stable_at self rho2var rho) /\
      ((exists l x y, sorted rhos = l ++ [x; y] /\
          select self rhos rho2var = (log_fallback self x, OK x))
       \/ ((length rhos < 2)%nat /\
           select self rhos rho2var = ([], Raise IndexError)))).
Proof.
  intros Hc.
  destruct (scan_spec self _ (sorted rhos) (covered_sorted _ _ Hc))
    as [(l1 & r & l2 & E & Hl1 & Hr & Hs)|[Hall Hs]].
  - left. exists r, l1, l2. split; [done|]. split; [done|]. split; [done|].
    by apply select_found.
  - right. split.
    { intros rho Hrho. rewrite Forall_forall in Hall. apply Hall.
      by apply elem_of_sorted. }
    destruct (le_lt_dec 2 (length rhos)) as [Hl|Hl].
    + left. destruct (index_m2_ge (sorted rhos)) as (l & x & y & E & Hi).
      { by rewrite length_sorted. }
      exists l, x, y. split; [done|]. by apply select_fallback.
    + right. split; [done|]. apply select_fallback_fails; [done|].
      apply index_m2_lt. by rewrite length_sorted.
Qed.

Lemma optimal_reg_cases rhos s2d :
  (exists e, instabilities self rhos s2d = Raise e /\
             optimal_reg self rhos s2d = ([], Raise e))
  \/ (exists d, instabilities self rhos s2d = OK d /\ covered d rhos /\
                optimal_reg self rhos s2d = select self rhos d).
Proof.
  destruct (instabilities self rhos s2d) as [e|d] eqn:Hd.
  - left. exists e. split; [done|]. by apply optimal_reg_Raise.
  - right. exists d. split; [done|].
    split; [by eapply instabilities_covered|]. by apply optimal_reg_select.
Qed.

Lemma log_selected_no_warning r : existsb is_warning (log_selected self r) = false.
Proof. unfold log_selected. by destruct (verbose self). Qed.

(** X1. A value that [optimal_reg] returns is one of the values of the
    path it was given. *)
Theorem optimal_reg_returns_candidate (rhos : list Q)
    (sample2deps : list (sample * list (ndarray Q))) (log : list event) (r : Q) :
  optimal_reg self rhos sample2deps = (log, OK r) -> r ∈ rhos.
Proof.
  destruct (optimal_reg_cases rhos sample2deps)
    as [(e & _ & ->)|(d & _ & Hc & ->)]; [done|].
  destruct (select_outcome rhos d Hc)
    as [(r0 & l1 & l2 & E & _ & _ & ->)|[_ [(l & x & y & E & ->)|[_ ->]]]];
    [| |done].
  - intros [= _ <-]. apply elem_of_sorted. rewrite E.
    apply elem_of_app. right. left.
  - intros [= _ <-]. apply elem_of_sorted. rewrite E.
    apply elem_of_app. right. left.
Qed.

(** X2. A call of [optimal_reg] that raises has not reached its own
    reporting: every statement that can raise (lines 78-99) comes before
    the call of [warnings.warn] (line 100) and the [print] (line 103),
    so the log of these two is empty. (The log does not hold a
    RuntimeWarning of numpy, see [Py.event].) *)
Theorem optimal_reg_raises_before_reporting (rhos : list Q)
    (sample2deps : list (sample * list (ndarray Q))) (log : list event) (e : exn) :
  optimal_reg self rhos sample2deps = (log, Raise e) -> log = [].
Proof.
  destruct (optimal_reg_cases rhos sample2deps)
    as [(e' & _ & ->)|(d & _ & Hc & ->)]; [by intros [= <- _]|].
  destruct (select_outcome rhos d Hc)
    as [(r0 & l1 & l2 & E & _ & _ & ->)|[_ [(l & x & y & E & ->)|[_ ->]]]];
    [done|done|]. by intros [= <- _].
Qed.
End outcomes.

Lemma optimal_reg_returns_candidate_witness : 0.5 ∈ Ex.rhos.
Proof.
  apply (optimal_reg_returns_candidate default_Stability Ex.rhos Ex.agree_last
           [Printed 0.5]).
  reflexivity.
Defined.

Lemma optimal_reg_raises_before_reporting_witness :
  exists log, optimal_reg default_Stability Ex.rhos [] = (log, Raise TypeError)
              /\ log = [].
Proof.
  exists []. split; [reflexivity|].
  apply (optimal_reg_raises_before_reporting default_Stability Ex.rhos [] [] TypeError).
  reflexivity.
Defined.


(** ** Matrices that are not square *)

Section non_square.
Import Np.
Variable self : Stability.

Lemma dep2adj_cases dep :
  ((shape dep).1 <> (shape dep).2 /\ _dep2adj self dep = Raise not_quadratic)
  \/ ((shape dep).1 = (shape dep).2 /\ exists adj, _dep2adj self dep = OK adj).
Proof.
  unfold _dep2adj. destruct (Nat.eqb_spec (shape dep).1 (shape dep).2) as [E|E].
  - right. split; [done|]. destruct (allclose dep (T dep)); eauto.
  - by left.
Qed.

Lemma mapM_one_exn {A B} (f : A -> result B) (e : exn) (l : list A) :
  (forall x, f x = Raise e \/ exists y, f x = OK y) ->
  (mapM f l = Raise e /\ exists x, x ∈ l /\ f x = Raise e)
  \/ (exists ys, mapM f l = OK ys /\ forall x, x ∈ l -> exists y, f x = OK y).
Proof.
  intros Hf. induction l as [|x l IH].
  - right. exists []. split; [done|]. by intros x ?%elem_of_nil.
  - cbn [mapM]. destruct (Hf x) as [Hx|[y Hx]]; rewrite Hx.
    + left. split; [done|]. exists x. split; [left | done].
    + rewrite rbind_OK. destruct IH as [[-> (x' & Hin & Hx')]|(ys & -> & Hall)].
      * left. split; [done|]. exists x'. split; [by right | done].
      * right. exists (y :: ys). split; [done|].
        intros x' [->|Hin]%elem_of_cons; eauto.
Qed.

Lemma foldl_sample2adjs_non_square acc (s2d : list (sample * list (ndarray Q))) :
  (exists deps dep, deps ∈ s2d.*2 /\ dep ∈ deps /\ (shape dep).1 <> (shape dep).2) ->
  foldl (fun acc '(sample, deps) =>
           sample2adjs <- acc ;;
           adjs <- mapM (_dep2adj self) deps ;;
           OK (Dict.set String.eqb sample2adjs sample adjs))
        (OK acc) s2d
  = Raise not_quadratic.
Proof.
  revert acc. induction s2d as [|[s deps] s2d IH]; intros acc (deps' & dep & Hin & Hdep & Hns).
  - by apply elem_of_nil in Hin.
  - cbn [foldl]. rewrite rbind_OK.
    destruct (mapM_one_exn (_dep2adj self) not_quadratic deps)
      as [[-> _]|(adjs & -> & Hall)].
    { intros d. destruct (dep2adj_cases d) as [[_ ->]|[_ [adj ->]]]; eauto. }
    + cbn [rbind]. apply foldl_step_Raise. by intros [].
    + rewrite rbind_OK. apply IH.
      rewrite fmap_cons in Hin. apply elem_of_cons in Hin as [->|Hin].
      * simpl in Hdep. destruct (Hall dep Hdep) as [adj Hadj].
        destruct (dep2adj_cases dep) as [[_ E]|[E _]]; [|done].
        rewrite E in Hadj. discriminate Hadj.
      * eauto.
Qed.

Lemma sample2adjs_non_square rhos (s2d : list (sample * list (ndarray Q))) :
  Forall (fun deps : list (ndarray Q) => length deps = length rhos) s2d.*2 ->
  (exists deps dep, deps ∈ s2d.*2 /\ dep ∈ deps /\ (shape dep).1 <> (shape dep).2) ->
  sample2adjs_of self rhos s2d = Raise not_quadratic.
Proof.
  intros Hlen Hbad. unfold sample2adjs_of.
  assert (Hl : forallb (fun deps : list (ndarray Q) =>
                          (length rhos =? length deps)%nat)
                       (Dict.values s2d) = true).
  { apply forallb_forall. intros deps Hdeps%list_elem_of_In.
    rewrite Forall_forall in Hlen. rewrite (Hlen deps Hdeps).
    apply Nat.eqb_refl. }
  rewrite Hl. by apply (foldl_sample2adjs_non_square [] s2d).
Qed.

(** X3. When every subsample has as many matrices as the path has values
    and one of these matrices is not square, [optimal_reg] fails on the
    assertion of [_dep2adj], with nothing warned or printed. *)
Theorem optimal_reg_rejects_non_square (rhos : list Q)
    (sample2deps : list (sample * list (ndarray Q))) :
  Forall (fun deps : list (ndarray Q) => length deps = length rhos)
         sample2deps.*2 ->
  (exists deps dep, deps ∈ sample2deps.*2 /\ dep ∈ deps /\
     (shape dep).1 <> (shape dep).2) ->
  optimal_reg self rhos sample2deps
  = ([], Raise (AssertionError "Dependency matrix is not quadratic")).
Proof.
  intros Hlen Hbad. apply optimal_reg_Raise. unfold instabilities.
  by rewrite (sample2adjs_non_square rhos sample2deps Hlen Hbad).
Qed.
End non_square.

Lemma optimal_reg_rejects_non_square_witness :
  optimal_reg default_Stability [0.1; 0.3]
    [("a"%string, [Ex.full2; [[0; 1; 0]; [1; 0; 0]]])]
  = ([], Raise (AssertionError "Dependency matrix is not quadratic")).
Proof.
  apply (optimal_reg_rejects_non_square default_Stability).
  - repeat constructor.
  - exists [Ex.full2; [[0; 1; 0]; [1; 0; 0]]], [[0; 1; 0]; [1; 0; 0]].
    split; [left|]. split; [right; left|]. simpl. lia.
Defined.

(** ** The parameters *)

Section parameters.
Import Np.

Lemma instabilities_same_thres (self self' : Stability) rhos
    (s2d : list (sample * list (ndarray Q))) :
  thres self' = thres self ->
  instabilities self' rhos s2d = instabilities self rhos s2d.
Proof.
  destruct self as [b t v], self' as [b' t' v']. simpl. intros ->. reflexivity.
Qed.

(** X4. [verbose] changes nothing but the printed line: a silenced
    instance returns the same value or raises the same exception, and
    leaves the same log without the printed line. *)
Theorem verbose_only_prints (self : Stability) (rhos : list Q)
    (sample2deps : list (sample * list (ndarray Q))) :
  optimal_reg (quiet self) rhos sample2deps
  = (List.filter (fun e => negb (is_printed e))
                 (optimal_reg self rhos sample2deps).1,
     (optimal_reg self rhos sample2deps).2).
Proof.
  unfold optimal_reg.
  rewrite (instabilities_same_thres self (quiet self)) by done.
  destruct (instabilities self rhos sample2deps) as [e|d]; [done|].
  change (inr d) with (OK d). rewrite !bind_lift_OK. unfold select.
  rewrite (scan_same_beta self (quiet self)) by done.
  destruct (scan self d (sorted rhos)) as [e|[r|]]; [done| |].
  - change (inr (Some r)) with (OK (Some r)). rewrite !bind_lift_OK.
    simpl. by destruct (verbose self).
  - change (inr None) with (OK (@None Q)). rewrite !bind_lift_OK.
    destruct (index_m2 (sorted rhos)) as [e|x]; [done|].
    simpl. by destruct (verbose self).
Qed.

Lemma stable_at_larger_beta (self self' : Stability) d rho :
  beta self <= beta self' -> stable_at self d rho -> stable_at self' d rho.
Proof.
  intros Hb (m & Hm & Hle). exists m. split; [done|].
  apply le_trans with (Fin (beta self)); [done|]. by apply Qle_bool_iff.
Qed.

(** X5. A larger bound never selects a larger value: if [optimal_reg]
    returns a value without a warning, then with a larger [beta] (and the
    same threshold) it returns, again without a warning, a value that is
    not larger. *)
Theorem larger_beta_selects_no_later (self self' : Stability) (rhos : list Q)
    (sample2deps : list (sample * list (ndarray Q))) (log : list event) (r : Q) :
  thres self' = thres self ->
  beta self <= beta self' ->
  optimal_reg self rhos sample2deps = (log, OK r) ->
  existsb is_warning log = false ->
  exists r', optimal_reg self' rhos sample2deps = (log_selected self' r', OK r')
             /\ r' <= r.
Proof.
  intros Ht Hb Hr Hw.
  destruct (optimal_reg_cases self rhos sample2deps)
    as [(e & _ & E)|(d & Hd & Hc & E)]; [rewrite E in Hr; discriminate Hr|].
  rewrite E in Hr.
  assert (Hst : r ∈ rhos /\ stable_at self d r).
  { destruct (select_outcome self rhos d Hc)
      as [(r0 & l1 & l2 & Es & _ & Hr0 & Hs)|[_ [(l & x & y & _ & Hs)|[_ Hs]]]];
      rewrite Hs in Hr.
    - injection Hr as _ <-. split; [|done]. apply elem_of_sorted.
      rewrite Es. apply elem_of_app. right. left.
    - injection Hr as <- _. done.
    - done. }
  destruct Hst as [Hin Hst].
  rewrite (optimal_reg_select self' rhos sample2deps d)
    by (by rewrite (instabilities_same_thres self self')).
  destruct (select_outcome self' rhos d Hc)
    as [(r' & l1 & l2 & Es & Hl1 & _ & Hs)|[Hno _]].
  - exists r'. split; [done|].
    apply (first_is_smallest self' d rhos l1 r' l2 Es Hl1 r Hin).
    by apply (stable_at_larger_beta self).
  - destruct (Hno r Hin). by apply (stable_at_larger_beta self).
Qed.
End parameters.

Lemma larger_beta_selects_no_later_witness :
  exists r', optimal_reg {| beta := 0.2; thres := 1e-3; verbose := true |}
               Ex.rhos Ex.agree_last = ([Printed r'], OK r')
             /\ r' <= 0.5.
Proof.
  apply (larger_beta_selects_no_later default_Stability
           {| beta := 0.2; thres := 1e-3; verbose := true |}
           Ex.rhos Ex.agree_last [Printed 0.5] 0.5).
  - reflexivity.
  - discriminate.
  - reflexivity.
  - reflexivity.
Defined.


(** ** More on [_dep2adj] *)

Section dep2adj_more.
Import Np NpFacts.

Lemma exceeds_mono (self self' : Stability) x :
  thres self <= thres self' -> exceeds self' x = true -> exceeds self x = true.
Proof.
  rewrite !exceeds_iff. intros Ht Hx. by apply Qle_lt_trans with (thres self').
Qed.

Lemma b2z_mono b b' : (b' = true -> b = true) -> (b2z b' <= b2z b)%Z.
Proof. destruct b, b'; simpl; intros H; try lia; by specialize (H eq_refl). Qed.

(** X6. Raising the threshold removes edges and adds none: for a square
    dependency matrix, every entry of the adjacency matrix for the larger
    threshold is at most the entry for the smaller one. *)
Theorem dep2adj_threshold_monotone (self self' : Stability) (dep : ndarray Q)
    (p : nat) :
  square p dep ->
  thres self <= thres self' ->
  exists adj adj',
    _dep2adj self dep = OK adj /\ _dep2adj self' dep = OK adj' /\
    forall i j, (i < p)%nat -> (j < p)%nat ->
      exists a a', at_ adj i j = Some a /\ at_ adj' i j = Some a' /\ (a' <= a)%Z.
Proof.
  intros Hsq Ht. exists (adj_closed self p dep), (adj_closed self' p dep).
  split; [by apply dep2adj_square|]. split; [by apply dep2adj_square|].
  intros i j Hi Hj. unfold adj_closed. do 2 eexists.
  split; [by apply at_tabulate|]. split; [by apply at_tabulate|].
  cbv beta zeta. apply b2z_mono.
  destruct (allclose dep (T dep)).
  - by apply exceeds_mono.
  - rewrite !orb_true_iff. intros [H|H]; [left|right]; by eapply exceeds_mono.
Qed.

Lemma dep2adj_threshold_monotone_witness :
  exists adj adj',
    _dep2adj default_Stability Ex.one3 = OK adj /\
    _dep2adj {| beta := 0.05; thres := 2; verbose := true |} Ex.one3 = OK adj' /\
    adj = [[0; 1; 0]; [1; 0; 0]; [0; 0; 0]]%Z /\
    adj' = [[0; 0; 0]; [0; 0; 0]; [0; 0; 0]]%Z.
Proof.
  destruct (dep2adj_threshold_monotone default_Stability
              {| beta := 0.05; thres := 2; verbose := true |} Ex.one3 3)
    as (adj & adj' & H & H' & _).
  - split; [reflexivity | repeat constructor].
  - discriminate.
  - exists adj, adj'. split; [exact H|]. split; [exact H'|].
    vm_compute in H, H'. injection H as <-. injection H' as <-. done.
Defined.

Lemma default_Some {A} (d x : A) : default d (Some x) = x.
Proof. reflexivity. Qed.

Lemma exceeds_opp self x : exceeds self (- x) = exceeds self x.
Proof. apply eq_true_iff_eq. rewrite !exceeds_iff. by rewrite Qabs_opp. Qed.

Lemma isclose_opp x y : isclose (- x) (- y) = isclose x y.
Proof.
  unfold isclose. apply eq_true_iff_eq. rewrite !Qle_bool_iff.
  assert (E : - x - - y == - (x - y)) by ring.
  by rewrite E, !Qabs_opp.
Qed.

(** X7. Only the magnitudes of the dependencies matter: a square
    dependency matrix and its negation have the same adjacency matrix. *)
Theorem dep2adj_sign_invariant (self : Stability) (dep : ndarray Q) (p : nat) :
  square p dep ->
  _dep2adj self (map1 Qopp dep) = _dep2adj self dep.
Proof.
  intros Hsq.
  assert (Hneg : map1 Qopp dep
                 = tabulate p p (fun i j => - default 0 (at_ dep i j))).
  { rewrite (square_as_tabulate 0 p dep Hsq) at 1. by rewrite map1_tabulate. }
  rewrite (dep2adj_square self p dep Hsq).
  rewrite (dep2adj_square self p (map1 Qopp dep))
    by (rewrite Hneg; apply square_tabulate).
  f_equal. unfold adj_closed. apply tabulate_ext. intros i j Hi Hj. cbv zeta.
  assert (Hc : allclose (map1 Qopp dep) (T (map1 Qopp dep)) = allclose dep (T dep)).
  { assert (Hr : allclose dep (T dep)
                 = forallb (forallb id)
                     (tabulate p p (fun a b =>
                        isclose (default 0 (at_ dep a b)) (default 0 (at_ dep b a))))).
    { unfold allclose. rewrite (square_as_tabulate 0 p dep Hsq) at 1 2.
      by rewrite T_tabulate, map2_tabulate. }
    rewrite Hr. unfold allclose. rewrite Hneg, T_tabulate, map2_tabulate.
    f_equal. apply tabulate_ext. intros a b _ _. apply isclose_opp. }
  rewrite Hc, Hneg, !at_tabulate by done. rewrite !default_Some.
  by rewrite !exceeds_opp.
Qed.

Lemma dep2adj_sign_invariant_witness :
  _dep2adj default_Stability (map1 Qopp Ex.one3) = _dep2adj default_Stability Ex.one3.
Proof.
  apply (dep2adj_sign_invariant default_Stability Ex.one3 3).
  split; [reflexivity | repeat constructor].
Defined.
End dep2adj_more.


(** ** More on [_adj_var] *)

Section adj_var_more.
Import Np NpFacts.

(** X8. [_adj_var] reads the entries above the diagonal only: two square
    matrices that agree there have the same score, whatever their
    diagonals and lower triangles. *)
Theorem adj_var_upper_triangle_only (m m' : ndarray Q) (p : nat) :
  square p m -> square p m' ->
  (forall i j, (i < j < p)%nat -> at_ m i j = at_ m' i j) ->
  _adj_var m = _adj_var m'.
Proof.
  intros Hm Hm' Heq.
  rewrite (adj_var_square p m Hm), (adj_var_square p m' Hm').
  unfold adj_var_closed. do 3 f_equal. apply list_fmap_ext.
  intros _ [i j] Hin%list_elem_of_lookup_2%elem_of_triu_pairs.
  unfold entry. simpl. by rewrite Heq.
Qed.

Lemma adj_var_upper_triangle_only_witness :
  _adj_var [[0; 1 # 2]; [1 # 2; 0]] = _adj_var [[7; 1 # 2]; [3; 9]].
Proof.
  apply (adj_var_upper_triangle_only _ _ 2).
  - split; [reflexivity | repeat constructor].
  - split; [reflexivity | repeat constructor].
  - intros i j Hij. assert (i = 0 /\ j = 1)%nat as [-> ->] by lia. reflexivity.
Defined.

Lemma at_map1 {A B} (g : A -> B) (a : ndarray A) i j :
  at_ (map1 g a) i j = g <$> at_ a i j.
Proof.
  unfold at_, map1. rewrite list_lookup_fmap.
  destruct (a !! i) as [r|]; [|done]. simpl. by rewrite list_lookup_fmap.
Qed.

(** X10. [_adj_var] takes the number of rows for the number of features:
    for a matrix of at least two rows that has fewer columns than rows,
    an index above the diagonal is out of range and the call raises
    IndexError. *)
Theorem adj_var_tall_matrix (m : ndarray Q) (r c : nat) :
  length m = r -> Forall (fun row => length row = c) m ->
  (2 <= r)%nat -> (c < r)%nat ->
  _adj_var m = Raise IndexError.
Proof.
  intros Hr Hrows H2 Hc. unfold _adj_var, triu_indices, take2.
  cbn [shape fst]. rewrite Hr, zip_fst_snd.
  destruct (mapM_one_exn
              (fun ij : nat * nat =>
                 match at_ m ij.1 ij.2 with
                 | Some v => OK v
                 | None => Raise IndexError
                 end) IndexError (triu_pairs r 1))
    as [[-> _]|(ys & _ & Hall)]; [|done|].
  { intros ij. destruct (at_ m ij.1 ij.2); eauto. }
  exfalso. destruct (Hall (0, Nat.max c 1)%nat) as [y Hy].
  { apply elem_of_triu_pairs. lia. }
  simpl in Hy. unfold at_ in Hy.
  destruct (lookup_lt_is_Some_2 m 0) as [row Hrow]; [lia|].
  rewrite Hrow in Hy. simpl in Hy.
  rewrite Forall_lookup in Hrows. specialize (Hrows _ _ Hrow).
  rewrite lookup_ge_None_2 in Hy by lia. discriminate Hy.
Qed.

Lemma adj_var_tall_matrix_witness :
  _adj_var [[0; 1]; [1; 0]; [0; 0]] = Raise IndexError.
Proof.
  apply (adj_var_tall_matrix _ 3 2).
  - reflexivity.
  - repeat constructor.
  - lia.
  - lia.
Defined.
End adj_var_more.


(** ** The scores of a valid input *)

Section scores.
Import Np NpFacts.
Variable self : Stability.

(** Whatever the matrix, an adjacency matrix holds zeros and ones. *)
Lemma dep2adj_binary dep adj a b x :
  _dep2adj self dep = OK adj -> at_ adj a b = Some x -> x = 0%Z \/ x = 1%Z.
Proof.
  unfold _dep2adj. destruct (_ =? _)%nat; [|done].
  destruct (allclose dep (T dep)); intros [= <-]; unfold astype_int;
    rewrite at_map1; destruct (at_ _ a b) as [c|]; try done;
    intros [= <-]; destruct c; auto.
Qed.

Lemma adj_entry_binary deps i a b :
  (0 <= adj_entry self deps i a b <= 1)%Z.
Proof.
  unfold adj_entry. destruct (deps !! i) as [dep|]; [|lia].
  destruct (_dep2adj self dep) as [e|adj] eqn:E; [lia|].
  destruct (at_ adj a b) as [x|] eqn:Ex; [|simpl; lia].
  rewrite default_Some. destruct (dep2adj_binary dep adj a b x E Ex); lia.
Qed.

Lemma sumZ_bounds {A} (f : A -> Z) (l : list A) :
  (forall x, 0 <= f x <= 1)%Z ->
  (0 <= sumZ (f <$> l) <= Z.of_nat (length l))%Z.
Proof.
  intros Hf. induction l as [|x l IH]; [done|].
  unfold sumZ in *. rewrite fmap_cons. cbn [foldr length].
  specialize (Hf x). lia.
Qed.

Lemma mean_adj_bounds p (s2d : list (sample * list (ndarray Q))) i a b :
  s2d <> [] -> (a < p)%nat -> (b < p)%nat ->
  exists f, at_ (mean_adj_at self p s2d i) a b = Some f /\ 0 <= f <= 1.
Proof.
  intros Hne Ha Hb. unfold mean_adj_at. eexists.
  split; [by apply at_tabulate|]. cbv beta.
  pose proof (sumZ_bounds (fun sd : sample * list (ndarray Q) =>
                             adj_entry self sd.2 i a b) s2d
                (fun sd => adj_entry_binary sd.2 i a b)) as [H0 H1].
  set (s := sumZ _) in *. set (n := Z.of_nat (length s2d)) in *.
  assert (Hn : 0 < inject_Z n).
  { change 0 with (inject_Z 0). rewrite <- Zlt_Qlt. unfold n.
    destruct s2d; [done|]. simpl. lia. }
  split.
  - apply Qle_shift_div_l; [done|]. rewrite Qmult_0_l.
    change 0 with (inject_Z 0). by rewrite <- Zle_Qle.
  - apply Qle_shift_div_r; [done|]. rewrite Qmult_1_l. by rewrite <- Zle_Qle.
Qed.

(** The score of a square matrix of frequencies. *)
Lemma adj_var_closed_bounds p m :
  square p m -> (2 <= p)%nat ->
  (forall i j f, (i < j)%nat -> at_ m i j = Some f -> 0 <= f <= 1) ->
  exists q, adj_var_closed p m = Fin q /\ 0 <= q <= 1 # 2.
Proof.
  intros Hsq Hp Hf. unfold adj_var_closed. eexists.
  split; [by apply div_pos, comb_2_pos|].
  pose proof (comb_2_pos p Hp) as Hn.
  set (cs := (fun ij => pair_instability (entry m ij)) <$> triu_pairs p 1).
  assert (Hlen : inject_Z (Z.of_nat (length cs)) = comb p 2).
  { unfold cs. by rewrite length_fmap, length_triu_pairs. }
  assert (Hb : 0 <= sum cs <= (1 # 2) * comb p 2).
  { rewrite <- Hlen. apply sum_bounds. unfold cs.
    apply Forall_fmap, Forall_forall. intros [i j] Hij.
    apply elem_of_triu_pairs in Hij.
    apply (pair_instability_bounds (entry m (i, j))). unfold entry. simpl.
    destruct (square_at p m i j Hsq) as [x Hx]; [lia..|].
    rewrite Hx, default_Some. apply (Hf i j); [lia | done]. }
  split.
  - apply Qle_shift_div_l; [done|]. lra.
  - apply Qle_shift_div_r; [done|]. lra.
Qed.

Lemma foldl_set_values {X V} (P : V -> Prop) (key : X -> Q) (val : X -> V)
    (l : list X) (d : list (Q * V)) :
  Forall P d.*2 -> (forall x, x ∈ l -> P (val x)) ->
  Forall P (foldl (fun d x => Dict.set Qeq_bool d (key x) (val x)) d l).*2.
Proof.
  revert d. induction l as [|x l IH]; intros d Hd Hl; [done|].
  cbn [foldl]. apply IH.
  - apply set_values_Forall; [done|]. apply Hl. left.
  - intros y Hy. apply Hl. by right.
Qed.

Lemma rho2var_closed_values (P : npfloat -> Prop) p rhos
    (s2d : list (sample * list (ndarray Q))) :
  (forall i, (i < length rhos)%nat ->
     P (adj_var_closed p (mean_adj_at self p s2d i))) ->
  Forall P (rho2var_closed self p rhos s2d).*2.
Proof.
  intros H. unfold rho2var_closed.
  rewrite (foldl_ext_in _
             (fun d (x : nat * Q) =>
                Dict.set Qeq_bool d x.2
                  (adj_var_closed p (mean_adj_at self p s2d x.1))))
    by (by intros [] ? _).
  apply (foldl_set_values P snd
           (fun x : nat * Q => adj_var_closed p (mean_adj_at self p s2d x.1))).
  - constructor.
  - intros [i rho] Hin%elem_of_zip_seq%lookup_lt_Some. by apply H.
Qed.

Lemma rho2var_closed_finite p rhos (s2d : list (sample * list (ndarray Q))) :
  s2d <> [] -> (2 <= p)%nat ->
  Forall (fun v => exists q, v = Fin q /\ 0 <= q <= 1 # 2)
         (rho2var_closed self p rhos s2d).*2.
Proof.
  intros Hne Hp. apply rho2var_closed_values. intros i _.
  apply adj_var_closed_bounds; [apply square_tabulate | done |].
  intros a b f Hab Hf.
  destruct (at_tabulate_Some _ _ _ _ _ _ Hf) as (Ha & Hb & _).
  destruct (mean_adj_bounds p s2d i a b Hne Ha Hb) as (f' & Hf' & Hbd).
  congruence.
Qed.

(** X11. On a valid input over at least two features every score is a
    number between 0 and 1/2. *)
Theorem scores_between_0_and_half (p : nat) (rhos : list Q)
    (sample2deps : list (sample * list (ndarray Q))) :
  valid_input p rhos sample2deps -> (2 <= p)%nat ->
  exists rho2var,
    instabilities self rhos sample2deps = OK rho2var /\
    forall k v, (k, v) ∈ rho2var -> exists q, v = Fin q /\ 0 <= q <= 1 # 2.
Proof.
  intros Hv Hp. exists (rho2var_closed self p rhos sample2deps).
  split; [by apply instabilities_valid|]. intros k v Hin.
  pose proof (rho2var_closed_finite p rhos sample2deps (proj1 Hv) Hp) as H.
  rewrite Forall_forall in H. apply H.
  apply list_elem_of_fmap. by exists (k, v).
Qed.

(** When every score is a number [<= beta], every candidate meets the
    bound. *)
Lemma all_stable rhos (d : list (Q * npfloat)) :
  covered d rhos ->
  (forall k v, (k, v) ∈ d -> exists q, v = Fin q /\ q <= beta self) ->
  forall rho, rho ∈ rhos -> stable_at self d rho.
Proof.
  intros Hc Hd rho Hrho.
  destruct (min_covered d rhos rho Hc Hrho) as [m Hm].
  apply (stable_at_min self d rho m Hm).
  apply min_running_min in Hm as ((lam & Hin & _) & _).
  destruct (Hd lam m Hin) as (q & -> & Hq). by apply Qle_bool_iff.
Qed.

Lemma select_all_stable rhos (d : list (Q * npfloat)) :
  rhos <> [] -> covered d rhos ->
  (forall rho, rho ∈ rhos -> stable_at self d rho) ->
  exists r, select self rhos d = (log_selected self r, OK r) /\
            r ∈ rhos /\ forall r', r' ∈ rhos -> r <= r'.
Proof.
  intros Hne Hc Hall.
  destruct (select_outcome self rhos d Hc)
    as [(r & l1 & l2 & Es & Hl1 & _ & Hs)|[Hno _]].
  - exists r. split; [done|]. split.
    + apply elem_of_sorted. rewrite Es. apply elem_of_app. right. left.
    + intros r' Hr'. apply (first_is_smallest self d rhos l1 r l2 Es Hl1 r' Hr').
      by apply Hall.
  - destruct rhos as [|rho rhos]; [done|]. destruct (Hno rho); [left|].
    apply Hall. left.
Qed.

(** X12. With a bound of at least 1/2 nothing is left to select: on a
    valid input over at least two features [optimal_reg] returns the
    smallest value of the path, without a warning. *)
Theorem beta_half_selects_smallest (p : nat) (rhos : list Q)
    (sample2deps : list (sample * list (ndarray Q))) :
  valid_input p rhos sample2deps -> (2 <= p)%nat -> rhos <> [] ->
  1 # 2 <= beta self ->
  exists r, optimal_reg self rhos sample2deps = (log_selected self r, OK r) /\
            r ∈ rhos /\ forall r', r' ∈ rhos -> r <= r'.
Proof.
  intros Hv Hp Hne Hb.
  pose proof (instabilities_valid self p rhos sample2deps Hv) as Hd.
  rewrite (optimal_reg_select self _ _ _ Hd).
  pose proof (instabilities_covered self _ _ _ Hd) as Hc.
  apply select_all_stable; [done..|]. apply all_stable; [done|].
  intros k v Hin.
  pose proof (rho2var_closed_finite p rhos sample2deps (proj1 Hv) Hp) as H.
  rewrite Forall_forall in H. destruct (H v) as (q & -> & Hq).
  { apply list_elem_of_fmap. by exists (k, v). }
  exists q. split; [done|]. lra.
Qed.

(** X13. With fewer than two features nothing is ever selected: on a
    valid input every score is [nan], so [optimal_reg] warns and falls
    back to the last but one value of the sorted path, or raises
    IndexError when the path has fewer than two values. *)
Theorem one_feature_always_falls_back (p : nat) (rhos : list Q)
    (sample2deps : list (sample * list (ndarray Q))) :
  valid_input p rhos sample2deps -> (p < 2)%nat ->
  ((2 <= length rhos)%nat ->
     exists l x y, sorted rhos = l ++ [x; y] /\
       optimal_reg self rhos sample2deps = (log_fallback self x, OK x)) /\
  ((length rhos < 2)%nat ->
     optimal_reg self rhos sample2deps = ([], Raise IndexError)).
Proof.
  intros Hv Hp.
  pose proof (instabilities_valid self p rhos sample2deps Hv) as Hd.
  rewrite (optimal_reg_select self _ _ _ Hd).
  pose proof (instabilities_covered self _ _ _ Hd) as Hc.
  assert (Hnan : Forall (fun v => v = NaN) (rho2var_closed self p rhos sample2deps).*2).
  { apply rho2var_closed_values. intros i _.
    destruct p as [|[|p]]; [reflexivity..|lia]. }
  assert (Hno : forall rho, rho ∈ rhos ->
                  ~ stable_at self (rho2var_closed self p rhos sample2deps) rho).
  { intros rho _ (m & ((lam & Hin & _) & _) & Hle).
    rewrite Forall_forall in Hnan. rewrite (Hnan m) in Hle; [done|].
    apply list_elem_of_fmap. by exists (lam, m). }
  destruct (select_outcome self rhos _ Hc)
    as [(r & l1 & l2 & Es & _ & Hr & _)|[_ [(l & x & y & Es & Hs)|[Hl Hs]]]].
  - destruct (Hno r); [|done]. apply elem_of_sorted. rewrite Es.
    apply elem_of_app. right. left.
  - split; [eauto|]. intros Hl.
    apply (f_equal length) in Es. rewrite length_sorted, length_app in Es.
    simpl in Es. lia.
  - split; [lia | done].
Qed.
End scores.

Lemma scores_between_0_and_half_witness :
  exists rho2var,
    instabilities default_Stability Ex.rhos Ex.agree_last = OK rho2var.
Proof.
  destruct (scores_between_0_and_half default_Stability 3 Ex.rhos Ex.agree_last)
    as (d & Hd & _).
  - solve_valid_input.
  - lia.
  - by exists d.
Defined.

Lemma beta_half_selects_smallest_witness :
  exists r, optimal_reg {| beta := 1 # 2; thres := 1e-3; verbose := false |}
              Ex.rhos Ex.agree_never = ([], OK r) /\ r == 0.1.
Proof.
  destruct (beta_half_selects_smallest
              {| beta := 1 # 2; thres := 1e-3; verbose := false |}
              3 Ex.rhos Ex.agree_never) as (r & Hr & _).
  - solve_valid_input.
  - lia.
  - discriminate.
  - apply Qle_refl.
  - exists r. split; [exact Hr|]. vm_compute in Hr. injection Hr as <-. reflexivity.
Defined.

Lemma one_feature_always_falls_back_witness :
  optimal_reg default_Stability [0.1; 0.3] [("a"%string, [[[1]]; [[1]]])]
  = ([Warning 0.1; Printed 0.1], OK 0.1).
Proof.
  destruct (one_feature_always_falls_back default_Stability 1 [0.1; 0.3]
              [("a"%string, [[[1]]; [[1]]])]) as [H _].
  - solve_valid_input.
  - lia.
  - destruct H as (l & x & y & _ & H); [simpl; lia|]. reflexivity.
Defined.


(** ** The dict of the scores *)

Section score_dict.
Import Np NpFacts.

Lemma distinct_values_snoc l k :
  distinct_values l -> Forall (fun k' => ~ k' == k) l -> distinct_values (l ++ [k]).
Proof.
  induction l as [|k0 l IH]; simpl.
  - intros _ _. split; [constructor | done].
  - intros [H0 Hl] [Hk0 Hk]%Forall_cons. split; [|by apply IH].
    apply Forall_app. split; [done|]. by constructor.
Qed.

Lemma set_keys {V} (d : list (Q * V)) k v :
  ((Dict.set Qeq_bool d k v).*1 = d.*1 /\
   exists k', k' ∈ d.*1 /\ k' == k)
  \/ ((Dict.set Qeq_bool d k v).*1 = d.*1 ++ [k] /\
      Forall (fun k' => ~ k' == k) d.*1).
Proof.
  induction d as [|[k0 v0] d IH].
  - right. split; [done | constructor].
  - cbn [Dict.set]. destruct (Qeq_bool k0 k) eqn:E; rewrite !fmap_cons; cbn [fst].
    + left. split; [done|]. exists k0. split; [left|]. by apply Qeq_bool_iff.
    + destruct IH as [[Hk (k' & Hin & Hk')]|[Hk Hf]]; rewrite Hk.
      * left. split; [done|]. exists k'. split; [by right|done].
      * right. split; [done|]. constructor; [|done].
        intros Hq. apply Qeq_bool_iff in Hq. congruence.
Qed.

Lemma set_keys_distinct {V} (d : list (Q * V)) k v :
  keys_distinct d -> keys_distinct (Dict.set Qeq_bool d k v).
Proof.
  unfold keys_distinct. intros Hd.
  destruct (set_keys d k v) as [[-> _]|[-> Hf]]; [done|].
  by apply distinct_values_snoc.
Qed.

Lemma set_keys_subset {V} (d : list (Q * V)) k v (rhos : list Q) :
  k ∈ rhos -> (forall k', k' ∈ d.*1 -> k' ∈ rhos) ->
  forall k', k' ∈ (Dict.set Qeq_bool d k v).*1 -> k' ∈ rhos.
Proof.
  intros Hk Hd k'. destruct (set_keys d k v) as [[-> _]|[-> _]]; [by apply Hd|].
  intros [H| ->%list_elem_of_singleton]%elem_of_app; [by apply Hd | done].
Qed.

Lemma get_Some_elem {V} (d : list (Q * V)) rho v :
  Dict.get Qeq_bool d rho = Some v -> exists k, (k, v) ∈ d /\ k == rho.
Proof.
  induction d as [|[k0 v0] d IH]; simpl; [done|].
  destruct (Qeq_bool k0 rho) eqn:E.
  - intros [= ->]. exists k0. split; [left|]. by apply Qeq_bool_iff.
  - intros (k & Hin & Hk)%IH. exists k. split; [by right | done].
Qed.

Lemma get_elem_distinct {V} (d : list (Q * V)) k rho v :
  keys_distinct d -> (k, v) ∈ d -> k == rho ->
  Dict.get Qeq_bool d rho = Some v.
Proof.
  unfold keys_distinct. induction d as [|[k0 v0] d IH]; simpl.
  - by intros _ ?%elem_of_nil.
  - intros [H0 Hd] [[= <- <-]|Hin]%elem_of_cons Hk.
    + by rewrite (proj2 (Qeq_bool_iff k rho) Hk).
    + destruct (Qeq_bool k0 rho) eqn:E; [|by apply IH].
      apply Qeq_bool_iff in E. rewrite Forall_forall in H0.
      destruct (H0 k).
      * apply list_elem_of_fmap. by exists (k, v).
      * by rewrite E, Hk.
Qed.

(** What holds of [d0] and is kept by every assignment holds of the
    result of lines 83-85. *)
Lemma rho2adjs_invariant (P : list (Q * ndarray Z) -> Prop)
    (s2a : list (sample * list (ndarray Z))) (l : list (nat * Q)) d0 d :
  foldl (fun acc '(i, rho) =>
           rho2adjs <- acc ;;
           col <- mapM (fun vals : list (ndarray Z) => getitem vals i)
                       (Dict.values s2a) ;;
           s <- reduce Np.add col ;;
           OK (Dict.set Qeq_bool rho2adjs rho s))
        (OK d0) l = OK d ->
  P d0 ->
  (forall d i rho s, (i, rho) ∈ l -> P d -> P (Dict.set Qeq_bool d rho s)) ->
  P d.
Proof.
  revert d0. induction l as [|[i rho] l IH]; intros d0.
  - by intros [= <-].
  - cbn [foldl]. rewrite rbind_OK.
    destruct (mapM _ (Dict.values s2a)) as [e|c];
      [cbn [rbind]; rewrite foldl_step_Raise by (by intros []); done|].
    rewrite rbind_OK.
    destruct (reduce add c) as [e|s];
      [cbn [rbind]; rewrite foldl_step_Raise by (by intros []); done|].
    rewrite rbind_OK. intros Hd H0 Hstep. apply (IH _ Hd).
    + apply (Hstep d0 i rho s); [left | done].
    + intros d' i' rho' s' Hin Hp. apply (Hstep d' i' rho' s'); [by right | done].
Qed.

Lemma instabilities_keys self rhos (s2d : list (sample * list (ndarray Q))) d :
  instabilities self rhos s2d = OK d ->
  keys_distinct d /\ (forall k, k ∈ d.*1 -> k ∈ rhos).
Proof.
  unfold instabilities.
  destruct (sample2adjs_of self rhos s2d) as [e|s2a]; [done|]. rewrite rbind_OK.
  destruct (rho2adjs_of rhos s2a) as [e|r2a] eqn:E; [done|]. rewrite rbind_OK.
  intros Hd. unfold rho2var_of in Hd. apply mapM_keys in Hd.
  2:{ intros [rho m] y. destruct (_adj_var m); [done|]. by intros [= <-]. }
  rewrite <- list_fmap_compose in Hd.
  assert (Hk : d.*1 = r2a.*1).
  { rewrite Hd. apply list_fmap_ext. by intros _ [] _. }
  unfold keys_distinct. rewrite Hk.
  apply (rho2adjs_invariant
           (fun d => keys_distinct d /\ forall k, k ∈ d.*1 -> k ∈ rhos)
           s2a _ [] r2a E).
  - split; [done|]. by intros k ?%elem_of_nil.
  - intros d' i rho s Hin [Hdist Hsub]. split.
    + by apply set_keys_distinct.
    + apply set_keys_subset; [|done].
      apply elem_of_zip_seq in Hin. by eapply list_elem_of_lookup_2.
Qed.

(** X14. The dict of the scores has one entry for every distinct value of
    the path: no two of its keys are equal, every key is a value of the
    path, every value of the path has a score, and looking a value up
    gives the score of the one entry whose key equals it. *)
Theorem one_score_per_value (self : Stability) (rhos : list Q)
    (sample2deps : list (sample * list (ndarray Q)))
    (rho2var : list (Q * npfloat)) :
  instabilities self rhos sample2deps = OK rho2var ->
  keys_distinct rho2var /\
  (forall k v, (k, v) ∈ rho2var -> k ∈ rhos) /\
  (forall rho, rho ∈ rhos -> is_Some (Dict.get Qeq_bool rho2var rho)) /\
  (forall rho v, Dict.get Qeq_bool rho2var rho = Some v <->
                 exists k, (k, v) ∈ rho2var /\ k == rho).
Proof.
  intros Hd. destruct (instabilities_keys self rhos sample2deps _ Hd) as [Hdist Hsub].
  split; [done|]. split; [|split].
  - intros k v Hin. apply Hsub. apply list_elem_of_fmap. by exists (k, v).
  - intros rho Hrho.
    destruct (instabilities_covered self _ _ _ Hd rho Hrho) as (k & v & Hin & Hk).
    exists v. by apply (get_elem_distinct rho2var k).
  - intros rho v. split; [apply get_Some_elem|].
    intros (k & Hin & Hk). by apply (get_elem_distinct rho2var k).
Qed.

Lemma one_score_per_value_witness :
  keys_distinct [(0.5, Fin (0 # 4))] /\
  Dict.get Qeq_bool [(0.5, Fin (0 # 4))] 0.5 = Some (Fin (0 # 4)).
Proof.
  destruct (one_score_per_value default_Stability Ex.twice Ex.differ_first
              [(0.5, Fin (0 # 4))]) as (H1 & _ & _ & H4).
  - reflexivity.
  - split; [exact H1|]. apply H4. exists 0.5. split; [left | reflexivity].
Defined.
End score_dict.


(** ** What the running minimum selects *)

Section own_score.
Import Np NpFacts.
Variable self : Stability.

(** Among finite scores, a candidate is within the bound as soon as a
    value not above it has a score within the bound. *)
Lemma stable_of_score rhos (d : list (Q * npfloat)) k q rho :
  covered d rhos -> rho ∈ rhos ->
  (forall k v, (k, v) ∈ d -> exists q, v = Fin q) ->
  (k, Fin q) ∈ d -> k <= rho -> q <= beta self ->
  stable_at self d rho.
Proof.
  intros Hc Hrho Hfin Hin Hk Hq.
  destruct (min_covered d rhos rho Hc Hrho) as [m Hm].
  apply (stable_at_min self d rho m Hm).
  apply min_running_min in Hm as (_ & _ & Hle).
  apply le_trans with (Fin q); [|by apply Qle_bool_iff].
  apply Hle; [|by exists k].
  intros (lam & Hnan & _). by destruct (Hfin lam NaN Hnan).
Qed.

(** X15. Among finite scores the running minimum selects by the scores
    themselves: on a valid input over at least two features, a value that
    [optimal_reg] returns without a warning has a score of its own that is
    [<= beta], and every value of the path whose own score is [<= beta]
    is at least as large. *)
Theorem selects_smallest_with_own_score (p : nat) (rhos : list Q)
    (sample2deps : list (sample * list (ndarray Q)))
    (log : list event) (r : Q) :
  valid_input p rhos sample2deps -> (2 <= p)%nat ->
  optimal_reg self rhos sample2deps = (log, OK r) ->
  existsb is_warning log = false ->
  exists rho2var q,
    instabilities self rhos sample2deps = OK rho2var /\
    Dict.get Qeq_bool rho2var r = Some (Fin q) /\ q <= beta self /\
    forall rho' q', rho' ∈ rhos ->
      Dict.get Qeq_bool rho2var rho' = Some (Fin q') -> q' <= beta self ->
      r <= rho'.
Proof.
  intros Hv Hp Hr Hw.
  pose proof (instabilities_valid self p rhos sample2deps Hv) as Hd.
  set (d := rho2var_closed self p rhos sample2deps) in *.
  pose proof (instabilities_covered self _ _ _ Hd) as Hc.
  destruct (instabilities_keys self _ _ _ Hd) as [Hdist Hsub].
  assert (Hfin : forall k v, (k, v) ∈ d -> exists q, v = Fin q).
  { intros k v Hin.
    pose proof (rho2var_closed_finite self p rhos sample2deps (proj1 Hv) Hp) as H.
    rewrite Forall_forall in H. destruct (H v) as (q & -> & _); [|eauto].
    apply list_elem_of_fmap. by exists (k, v). }
  rewrite (optimal_reg_select self _ _ _ Hd) in Hr.
  destruct (select_outcome self rhos d Hc)
    as [(r0 & l1 & l2 & Es & Hl1 & Hst & Hs)|[_ [(l & x & y & _ & Hs)|[_ Hs]]]];
    rewrite Hs in Hr; [|by injection Hr as <- _|done].
  injection Hr as _ <-.
  assert (Hsmall : forall rho', rho' ∈ rhos -> stable_at self d rho' -> r0 <= rho').
  { by apply (first_is_smallest self d rhos l1 r0 l2). }
  destruct Hst as (m & ((lam & Hin & Hlam) & _) & Hle).
  destruct (Hfin lam m Hin) as [q ->].
  apply Qle_bool_iff in Hle.
  assert (Hlr : lam ∈ rhos).
  { apply Hsub. apply list_elem_of_fmap. by exists (lam, Fin q). }
  assert (Heq : lam == r0).
  { apply Qle_antisym; [done|]. apply Hsmall; [done|].
    apply (stable_of_score rhos d lam q lam); try done. apply Qle_refl. }
  exists d, q. split; [done|]. split; [by apply (get_elem_distinct d lam)|].
  split; [done|]. intros rho' q' Hrho' Hget Hq'.
  apply Hsmall; [done|].
  apply get_Some_elem in Hget as (k & Hk & Ek).
  apply (stable_of_score rhos d k q' rho'); try done.
  rewrite Ek. apply Qle_refl.
Qed.

Lemma sumZ_const {A} (f : A -> Z) (c : Z) (l : list A) :
  (forall x, x ∈ l -> f x = c) -> sumZ (f <$> l) = (c * Z.of_nat (length l))%Z.
Proof.
  induction l as [|x l IH]; intros H; [unfold sumZ; simpl; lia|].
  unfold sumZ in *. rewrite fmap_cons. cbn [foldr length].
  rewrite (H x) by left. rewrite IH by (intros y Hy; apply H; by right). lia.
Qed.

Lemma adj_var_closed_zero p m :
  square p m -> (2 <= p)%nat ->
  (forall i j f, (i < j)%nat -> at_ m i j = Some f -> f == 0 \/ f == 1) ->
  exists q, adj_var_closed p m = Fin q /\ q == 0.
Proof.
  intros Hsq Hp H01. unfold adj_var_closed. eexists.
  split; [by apply div_pos, comb_2_pos|].
  pose proof (comb_2_pos p Hp) as Hn.
  set (cs := (fun ij => pair_instability (entry m ij)) <$> triu_pairs p 1).
  assert (Hs : sum cs == 0 * inject_Z (Z.of_nat (length cs))).
  { apply sum_const. unfold cs. apply Forall_fmap, Forall_forall.
    intros [i j] Hij. apply elem_of_triu_pairs in Hij.
    unfold compose, pair_instability, entry. cbn [fst snd].
    destruct (square_at p m i j Hsq) as [x Hx]; [lia..|].
    rewrite Hx, default_Some.
    destruct (H01 i j x) as [E|E]; [lia | done | |]; rewrite E; reflexivity. }
  rewrite Hs. field. intros E. rewrite E in Hn. by apply Qlt_irrefl in Hn.
Qed.

(** X16. Where the subsamples agree there is no instability: on a valid
    input over at least two features, if all subsamples have the same
    adjacency matrix at a position whose value does not occur again
    later, the score of that value is 0. *)
Theorem agreement_scores_zero (p : nat) (rhos : list Q)
    (sample2deps : list (sample * list (ndarray Q))) (i : nat) (rho : Q) :
  valid_input p rhos sample2deps -> (2 <= p)%nat ->
  rhos !! i = Some rho ->
  (forall j rho', (i < j)%nat -> rhos !! j = Some rho' -> ~ rho' == rho) ->
  (forall sd sd' a b, sd ∈ sample2deps -> sd' ∈ sample2deps ->
     adj_entry self sd.2 i a b = adj_entry self sd'.2 i a b) ->
  exists rho2var q,
    instabilities self rhos sample2deps = OK rho2var /\
    Dict.get Qeq_bool rho2var rho = Some (Fin q) /\ q == 0.
Proof.
  intros Hv Hp Hi Hlast Hagree.
  destruct (adj_var_closed_zero p (mean_adj_at self p sample2deps i))
    as (q & Hq & Hq0); [apply square_tabulate | done | |].
  { intros a b f _ Hf. unfold mean_adj_at in Hf.
    apply at_tabulate_Some in Hf as (_ & _ & ->).
    destruct sample2deps as [|sd0 s2d] eqn:Es; [by destruct Hv|].
    rewrite <- Es in *.
    rewrite (sumZ_const _ (adj_entry self sd0.2 i a b)).
    2:{ intros sd Hsd. apply Hagree; [done|]. rewrite Es. left. }
    assert (Hn : ~ inject_Z (Z.of_nat (length sample2deps)) == 0).
    { rewrite Es. simpl. discriminate. }
    pose proof (adj_entry_binary self sd0.2 i a b) as Hc.
    assert (Hc' : adj_entry self sd0.2 i a b = 0%Z \/ adj_entry self sd0.2 i a b = 1%Z)
      by lia.
    rewrite inject_Z_mult.
    destruct Hc' as [-> | ->]; [left | right]; by field. }
  exists (rho2var_closed self p rhos sample2deps), q.
  split; [by apply instabilities_valid|]. split; [|done].
  rewrite (rho2var_closed_get self p rhos sample2deps i rho Hi Hlast).
  by rewrite Hq.
Qed.
End own_score.

Lemma selects_smallest_with_own_score_witness :
  exists rho2var q,
    instabilities default_Stability Ex.rhos Ex.agree_last = OK rho2var /\
    Dict.get Qeq_bool rho2var 0.5 = Some (Np.Fin q) /\ q <= 0.05.
Proof.
  destruct (selects_smallest_with_own_score default_Stability 3 Ex.rhos
              Ex.agree_last [Printed 0.5] 0.5)
    as (d & q & Hd & Hg & Hq & _).
  - solve_valid_input.
  - lia.
  - reflexivity.
  - reflexivity.
  - exists d, q. done.
Defined.

Lemma agreement_scores_zero_witness :
  exists rho2var q,
    instabilities default_Stability Ex.rhos Ex.agree_last = OK rho2var /\
    Dict.get Qeq_bool rho2var 0.5 = Some (Np.Fin q) /\ q == 0.
Proof.
  apply (agreement_scores_zero default_Stability 3 Ex.rhos Ex.agree_last 2 0.5).
  - solve_valid_input.
  - lia.
  - reflexivity.
  - intros j rho' Hj Hr. destruct j as [|[|[|j]]]; [lia..|by destruct j].
  - intros sd sd' a b Hsd Hsd'.
    repeat (apply elem_of_cons in Hsd as [->|Hsd]);
      repeat (apply elem_of_cons in Hsd' as [->|Hsd']);
      try (by apply elem_of_nil in Hsd); try (by apply elem_of_nil in Hsd');
      reflexivity.
Defined.


(** ** The order of the path *)

Section path_order.
Import Np NpFacts.
Variable self : Stability.

Lemma reordered_index {A} pi (l l' : list A) j i :
  reordered pi l l' -> pi !! j = Some i -> (i < length l)%nat.
Proof.
  intros (Hp & _ & _) Hj.
  assert (Hi : i ∈ seq 0 (length l)).
  { rewrite <- Hp. by eapply list_elem_of_lookup_2. }
  apply elem_of_seq in Hi. lia.
Qed.

Lemma reordered_Permutation {A} pi (l l' : list A) :
  reordered pi l l' -> l' ≡ₚ l.
Proof.
  intros Hr. pose proof Hr as (Hp & Hlen & Hl).
  destruct l as [|x0 l0] eqn:El.
  { simpl in Hp. apply Permutation_nil_r in Hp. subst pi.
    destruct l'; [done|]. simpl in Hlen. lia. }
  rewrite <- El in *.
  assert (E' : l' = (fun i => default x0 (l !! i)) <$> pi).
  { apply list_eq. intros j. rewrite list_lookup_fmap.
    destruct (pi !! j) as [i|] eqn:Ej.
    - rewrite (Hl j i Ej). simpl.
      destruct (lookup_lt_is_Some_2 l i) as [x Hx];
        [by eapply (reordered_index pi l l')|].
      by rewrite Hx.
    - simpl. apply lookup_ge_None_2. apply lookup_ge_None_1 in Ej. lia. }
  assert (E : l = (fun i => default x0 (l !! i)) <$> seq 0 (length l)).
  { apply list_eq. intros j. rewrite list_lookup_fmap.
    destruct (decide (j < length l)%nat) as [Hj|Hj].
    - rewrite lookup_seq_lt by done. simpl.
      destruct (lookup_lt_is_Some_2 l j Hj) as [x Hx]. by rewrite Hx.
    - rewrite lookup_seq_ge by lia. apply lookup_ge_None_2. lia. }
  rewrite E'.
  transitivity ((fun i => default x0 (l !! i)) <$> seq 0 (length l));
    [by apply fmap_Permutation | by rewrite <- E].
Qed.

Lemma reordered_onto {A} pi (l l' : list A) i :
  reordered pi l l' -> (i < length l)%nat -> exists j, pi !! j = Some i.
Proof.
  intros (Hp & _ & _) Hi. apply list_elem_of_lookup. rewrite Hp.
  apply elem_of_seq. lia.
Qed.

(** Distinct values, as a property of the members. *)
Lemma distinct_values_spec l :
  distinct_values l <-> NoDup l /\ forall x y, x ∈ l -> y ∈ l -> x == y -> x = y.
Proof.
  induction l as [|k l IH]; simpl.
  - split; [|done]. intros _. split; [constructor|]. by intros x y ?%elem_of_nil.
  - rewrite IH. split.
    + intros (Hk & Hnd & Hl). rewrite Forall_forall in Hk. split.
      * constructor; [|done]. intros Hin. by destruct (Hk k Hin).
      * intros x y [->|Hx]%elem_of_cons [->|Hy]%elem_of_cons Hxy; auto.
        -- by destruct (Hk y Hy).
        -- destruct (Hk x Hx). by symmetry.
    + intros [Hnd Hl]. apply NoDup_cons in Hnd as [Hk Hnd]. split; [|split].
      * apply Forall_forall. intros k' Hk' Hq.
        assert (k = k') by (apply Hl; [left | by right | done]). by subst.
      * done.
      * intros x y Hx Hy. apply Hl; by right.
Qed.

Lemma distinct_values_Permutation l l' :
  l ≡ₚ l' -> distinct_values l -> distinct_values l'.
Proof.
  rewrite !distinct_values_spec. intros Hp [Hnd Hl]. split; [by rewrite <- Hp|].
  intros x y Hx Hy. apply Hl; by rewrite Hp.
Qed.

Lemma distinct_values_lookup l i j k k' :
  distinct_values l -> l !! i = Some k -> l !! j = Some k' -> k == k' -> i = j.
Proof.
  rewrite distinct_values_spec. intros [Hnd Hl] Hi Hj Hk.
  assert (k = k') as <-.
  { apply Hl; [by eapply list_elem_of_lookup_2..|done]. }
  by eapply NoDup_lookup.
Qed.

(** A list of distinct values is sorted in one way only. *)
Lemma sorted_unique l l' :
  (forall x y, x ∈ l -> y ∈ l -> x == y -> x = y) ->
  l ≡ₚ l' -> StronglySorted Qle l -> StronglySorted Qle l' -> l = l'.
Proof.
  revert l'. induction l as [|h t IH]; intros l' Hd Hp Hs Hs'.
  - by apply Permutation_nil_l in Hp.
  - destruct l' as [|h' t']; [by apply Permutation_nil_r in Hp|].
    apply StronglySorted_cons in Hs as [Hh Hs].
    apply StronglySorted_cons in Hs' as [Hh' Hs'].
    rewrite Forall_forall in Hh, Hh'.
    assert (Hle : h <= h').
    { assert (Hin : h' ∈ h :: t) by (rewrite Hp; left).
      apply elem_of_cons in Hin as [->|Hin]; [apply Qle_refl | by apply Hh]. }
    assert (Hle' : h' <= h).
    { assert (Hin : h ∈ h' :: t') by (rewrite <- Hp; left).
      apply elem_of_cons in Hin as [->|Hin]; [apply Qle_refl | by apply Hh']. }
    assert (h = h') as <-.
    { apply Hd; [left | rewrite Hp; left | by apply Qle_antisym]. }
    f_equal. apply IH; [|by eapply Permutation_cons_inv|done..].
    intros x y Hx Hy. apply Hd; by right.
Qed.

Lemma running_min_ext (d d' : list (Q * npfloat)) rho m :
  (forall kv, kv ∈ d' <-> kv ∈ d) ->
  running_min d' rho m -> running_min d rho m.
Proof.
  intros He (Hm & Hnan & Hle).
  assert (Hs : forall v, (exists lam, (lam, v) ∈ d /\ lam <= rho)
                         <-> (exists lam, (lam, v) ∈ d' /\ lam <= rho)).
  { intros v. split; intros (lam & Hin & Hl); exists lam; (split; [|done]);
      by apply He. }
  unfold running_min. cbv zeta. rewrite !Hs. split; [done|].
  split; [done|]. intros Hn v Hv. apply Hle; [done|]. by apply Hs.
Qed.

Lemma scan_ext (d d' : list (Q * npfloat)) rhos :
  (forall kv, kv ∈ d' <-> kv ∈ d) ->
  scan self d' rhos = scan self d rhos.
Proof.
  intros He. induction rhos as [|rho rhos IH]; [done|]. cbn [scan].
  assert (Hv : forall v, v ∈ vars_upto d' rho <-> v ∈ vars_upto d rho).
  { intros v. rewrite !elem_of_vars_upto.
    split; intros (lam & Hin & Hl); exists lam; (split; [|done]); by apply He. }
  destruct (min (vars_upto d rho)) as [e|m] eqn:Em;
    destruct (min (vars_upto d' rho)) as [e'|m'] eqn:Em'.
  - unfold min in Em, Em'.
    destruct (vars_upto d rho); [|done]. destruct (vars_upto d' rho); [|done].
    injection Em as <-. injection Em' as <-. done.
  - exfalso. unfold min in Em, Em'.
    destruct (vars_upto d rho); [|done].
    destruct (vars_upto d' rho) as [|x l]; [done|].
    assert (H : x ∈ @nil npfloat) by (apply Hv; left). by apply elem_of_nil in H.
  - exfalso. unfold min in Em, Em'.
    destruct (vars_upto d' rho); [|done].
    destruct (vars_upto d rho) as [|x l]; [done|].
    assert (H : x ∈ @nil npfloat) by (apply Hv; left). by apply elem_of_nil in H.
  - cbn [rbind]. rewrite IH.
    assert (Hb : le m' (Fin (beta self)) = le m (Fin (beta self))); [|by rewrite Hb].
    apply eq_true_iff_eq.
    rewrite <- (stable_at_min self d' rho m' Em'), <- (stable_at_min self d rho m Em).
    split; intros (x & Hx & Hle); exists x; (split; [|done]).
    + by apply (running_min_ext d d').
    + apply (running_min_ext d' d); [|done]. intros kv. symmetry. apply He.
Qed.

(** The entries of the dict of a valid input with distinct values. *)
Lemma rho2var_closed_elem p rhos (s2d : list (sample * list (ndarray Q))) k v :
  valid_input p rhos s2d -> distinct_values rhos ->
  (k, v) ∈ rho2var_closed self p rhos s2d
  <-> exists i, rhos !! i = Some k /\
                v = adj_var_closed p (mean_adj_at self p s2d i).
Proof.
  intros Hv Hd.
  pose proof (instabilities_valid self p rhos s2d Hv) as Hi.
  destruct (instabilities_keys self _ _ _ Hi) as [Hdist Hsub].
  assert (Hget : forall i k, rhos !! i = Some k ->
            Dict.get Qeq_bool (rho2var_closed self p rhos s2d) k
            = Some (adj_var_closed p (mean_adj_at self p s2d i))).
  { intros i k0 Hk0. apply rho2var_closed_get; [done|].
    intros j rho' Hj Hr Hq.
    pose proof (distinct_values_lookup rhos j i rho' k0 Hd Hr Hk0 Hq). lia. }
  split.
  - intros Hin.
    assert (Hk : k ∈ rhos).
    { apply Hsub. apply list_elem_of_fmap. by exists (k, v). }
    apply list_elem_of_lookup in Hk as [i Hk]. exists i. split; [done|].
    pose proof (get_elem_distinct _ k k v Hdist Hin ltac:(reflexivity)) as Hg.
    rewrite (Hget i k Hk) in Hg. by injection Hg.
  - intros (i & Hk & ->).
    destruct (get_Some_elem _ _ _ (Hget i k Hk)) as (k' & Hin & Hq).
    assert (k' = k) as <-; [|done].
    apply distinct_values_spec in Hd as [_ Hd]. apply Hd; [|by eapply list_elem_of_lookup_2|done].
    apply Hsub. apply list_elem_of_fmap. by exists (k', adj_var_closed p (mean_adj_at self p s2d i)).
Qed.
Lemma mean_adj_reordered p pi (s2d s2d' : list (sample * list (ndarray Q))) j i :
  Forall2 (fun sd sd' : sample * list (ndarray Q) =>
             sd'.1 = sd.1 /\ reordered pi sd.2 sd'.2) s2d s2d' ->
  pi !! j = Some i ->
  mean_adj_at self p s2d' j = mean_adj_at self p s2d i.
Proof.
  intros HF Hj. unfold mean_adj_at. apply tabulate_ext. intros a b _ _.
  rewrite (Forall2_length _ _ _ HF). do 3 f_equal.
  induction HF as [|sd sd' s2d s2d' [_ (_ & _ & Hl)] _ IH]; [done|].
  rewrite !fmap_cons, IH. f_equal. unfold adj_entry. by rewrite (Hl j i Hj).
Qed.

Lemma valid_input_reordered p pi rhos rhos'
    (s2d s2d' : list (sample * list (ndarray Q))) :
  valid_input p rhos s2d -> reordered pi rhos rhos' ->
  Forall2 (fun sd sd' : sample * list (ndarray Q) =>
             sd'.1 = sd.1 /\ reordered pi sd.2 sd'.2) s2d s2d' ->
  valid_input p rhos' s2d'.
Proof.
  intros (Hne & Hnd & Hv) Hr HF. split; [|split].
  - intros ->. apply Forall2_nil_inv_r in HF. done.
  - assert (E : s2d'.*1 = s2d.*1); [|by rewrite E].
    clear -HF. induction HF as [|sd sd' s2d s2d' [E _] _ IH]; [done|].
    by rewrite !fmap_cons, E, IH.
  - apply Forall_fmap, Forall_forall. intros sd' Hsd'.
    apply list_elem_of_lookup in Hsd' as [n Hn].
    destruct (Forall2_lookup_r _ _ _ _ _ HF Hn) as (sd & Hsd & _ & Hrd).
    rewrite Forall_fmap, Forall_lookup in Hv.
    destruct (Hv n sd Hsd) as [Hlen Hsq]. simpl. split.
    + destruct Hrd as (_ & -> & _). by destruct Hr as (_ & -> & _).
    + by rewrite (reordered_Permutation pi _ _ Hrd).
Qed.

(** X17. The path need not be sorted, nor in any particular order: on a
    valid input whose path has distinct values, giving the values of the
    path and, for every subsample, its matrices in another order (the
    same one for all) changes nothing of what [optimal_reg] returns,
    warns or prints. *)
Theorem path_order_irrelevant (p : nat) (pi : list nat) (rhos rhos' : list Q)
    (sample2deps sample2deps' : list (sample * list (ndarray Q))) :
  valid_input p rhos sample2deps ->
  distinct_values rhos ->
  reordered pi rhos rhos' ->
  Forall2 (fun sd sd' : sample * list (ndarray Q) =>
             sd'.1 = sd.1 /\ reordered pi sd.2 sd'.2)
          sample2deps sample2deps' ->
  optimal_reg self rhos' sample2deps' = optimal_reg self rhos sample2deps.
Proof.
  intros Hv Hd Hr HF.
  pose proof (valid_input_reordered p pi _ _ _ _ Hv Hr HF) as Hv'.
  pose proof (reordered_Permutation pi _ _ Hr) as Hp.
  pose proof (distinct_values_Permutation _ _ (symmetry Hp) Hd) as Hd'.
  rewrite (optimal_reg_select self _ _ _ (instabilities_valid self p _ _ Hv)).
  rewrite (optimal_reg_select self _ _ _ (instabilities_valid self p _ _ Hv')).
  assert (He : forall kv, kv ∈ rho2var_closed self p rhos' sample2deps'
                          <-> kv ∈ rho2var_closed self p rhos sample2deps).
  { intros [k v]. rewrite !rho2var_closed_elem by done.
    destruct Hr as (Hpi & Hlen & Hl). split.
    - intros (j & Hj & ->).
      destruct (lookup_lt_is_Some_2 pi j) as [i Hi].
      { rewrite <- Hlen. by eapply lookup_lt_Some. }
      exists i. split; [by rewrite <- (Hl j i Hi)|].
      by rewrite (mean_adj_reordered p pi _ _ j i HF Hi).
    - intros (i & Hi & ->).
      destruct (reordered_onto pi rhos rhos' i) as [j Hj];
        [done | by eapply lookup_lt_Some|].
      exists j. split; [by rewrite (Hl j i Hj)|].
      by rewrite (mean_adj_reordered p pi _ _ j i HF Hj). }
  assert (Es : sorted rhos' = sorted rhos).
  { apply sorted_unique; [| |apply sorted_StronglySorted..].
    - apply distinct_values_spec in Hd' as [_ Hd'].
      intros x y Hx Hy Hq.
      apply Hd'; [by apply (elem_of_sorted rhos')..|done].
    - by rewrite !sorted_Permutation. }
  unfold select. by rewrite Es, (scan_ext _ _ _ He).
Qed.
End path_order.

Lemma path_order_irrelevant_witness :
  optimal_reg default_Stability [0.5; 0.1; 0.3]
    [("a"%string, [Ex.none3; Ex.full3; Ex.one3]);
     ("b"%string, [Ex.none3; Ex.none3; Ex.none3])]
  = optimal_reg default_Stability Ex.rhos Ex.agree_last.
Proof.
  apply (path_order_irrelevant default_Stability 3 [2; 0; 1]%nat).
  - solve_valid_input.
  - repeat split; repeat constructor; discriminate.
  - split; [|split].
    + simpl.
      change [0; 1; 2]%nat with ([0; 1]%nat ++ [2%nat]).
      apply (Permutation_cons_append [0; 1]%nat 2%nat).
    + reflexivity.
    + intros j i Hj. destruct j as [|[|[|j]]]; [..|by destruct j];
        injection Hj as <-; reflexivity.
  - repeat constructor; simpl.
    + change [0; 1; 2]%nat with ([0; 1]%nat ++ [2%nat]).
      apply (Permutation_cons_append [0; 1]%nat 2%nat).
    + intros j i Hj. destruct j as [|[|[|j]]]; [..|by destruct j];
        injection Hj as <-; reflexivity.
    + change [0; 1; 2]%nat with ([0; 1]%nat ++ [2%nat]).
      apply (Permutation_cons_append [0; 1]%nat 2%nat).
    + intros j i Hj. destruct j as [|[|[|j]]]; [..|by destruct j];
        injection Hj as <-; reflexivity.
Defined.
